(** * Bond valuation engine ([cores/bond_calculations.py])

    A shallow embedding of the pricing, yield, duration, convexity,
    accrued-interest and cash-flow routines, and the properties that the
    specification states about them.

    Number model.  The Python code computes on binary64 floats.  Here a
    float is idealised as an exact rational ([Q]): every arithmetic
    operation returns the exact result, so rounding, overflow to
    infinity, NaN and the [OverflowError] of an overflowing [**] are
    outside the model.  What is kept from Python is the control flow, the
    integer conversions ([int] truncates toward zero), the operator
    precedence, and the exceptions that exact arithmetic still meets:
    [ZeroDivisionError] on [/] by zero and on [0.0 ** negative], and the
    [OverflowError] of [datetime] arithmetic leaving the years 1..9999.
    A function that can raise returns a [res]; results are compared with
    [==] ([Qeq]), the equality of rationals.

    Where the idealisation stops being representative.  The annuity term
    [coupon_payment * (1 - (1 + period_yield) ** -n_periods) / period_yield]
    subtracts two nearly equal numbers when [period_yield] is close to
    zero.  In binary64 [1 + period_yield] is exactly [1.0] as soon as
    [|period_yield| < 2^-54]: the numerator is then [0.0], the coupons
    vanish from the price, and [calculate_bond_price (1000, 0.05, 5,
    1e-17, 2)] is [1000.0] where the exact value is just under [1250].
    The relative error of the term is about [2^-53 / |period_yield|], so
    it is at the level of rounding only when the period yield is well away
    from zero.  The properties that the binary64 code would otherwise
    break there (the monotonicity of the price in the yield, the bounds of
    the Macaulay duration, the price as the present value of the schedule,
    the round trip through the solver) are therefore stated for yields
    that are [yield_resolved]: exactly zero (the code's special case,
    which involves no cancellation) or at least one millionth per period
    in absolute value.  Yields in between are left out of them. *)

From Stdlib Require Import ZArith QArith Qround Qabs Qpower Qfield.
From Stdlib Require Import List Bool Lia Lqa Psatz.
From Stdlib Require String.
Import ListNotations.

Local Open Scope Q_scope.

(** ** Exceptions and the error monad *)

Inductive exn : Type :=
| ZeroDivisionError
| OverflowError.

Inductive res (A : Type) : Type :=
| Ok (a : A)
| Raise (e : exn).

Arguments Ok {A} a.
Arguments Raise {A} e.

Definition bind {A B : Type} (m : res A) (k : A -> res B) : res B :=
  match m with
  | Ok a => k a
  | Raise e => Raise e
  end.

Notation "x <- m ;; k" := (bind m (fun x => k))
  (at level 61, m at next level, right associativity).

(** ** Python arithmetic on idealised floats *)

(** [a / b]: true division, raising on a zero divisor. *)
Definition pydiv (a b : Q) : res Q :=
  if Qeq_bool b 0 then Raise ZeroDivisionError else Ok (a / b).

(** [x ** n] for a float base and an [int] exponent: [0.0 ** 0] is [1.0],
    and zero to a negative power raises. *)
Definition pypow (x : Q) (n : Z) : res Q :=
  if Qeq_bool x 0 && (n <? 0)%Z then Raise ZeroDivisionError
  else Ok (x ^ n).

(** [int(x)]: truncation toward zero. *)
Definition py_int (x : Q) : Z := Z.quot (Qnum x) (Zpos (Qden x)).

(** [range(1, n + 1)]: empty when [n < 1]. *)
Definition range1 (n : Z) : list Z := map Z.of_nat (seq 1 (Z.to_nat n)).

(** ** [calculate_bond_price] *)

Definition calculate_bond_price
    (face_value coupon_rate years_to_maturity yield_rate : Q)
    (frequency : Z) : res Q :=
  if Qeq_bool yield_rate 0 then
    coupon_payment <- pydiv (face_value * coupon_rate) (inject_Z frequency) ;;
    Ok (coupon_payment * years_to_maturity * (inject_Z frequency) + face_value)
  else
    let n_periods := py_int (years_to_maturity * (inject_Z frequency)) in
    coupon_payment <- pydiv (face_value * coupon_rate) (inject_Z frequency) ;;
    period_yield <- pydiv yield_rate (inject_Z frequency) ;;
    pv_coupons <-
      (if negb (Qeq_bool period_yield 0) then
         d <- pypow (1 + period_yield) (- n_periods) ;;
         pydiv (coupon_payment * (1 - d)) period_yield
       else Ok (coupon_payment * (inject_Z n_periods))) ;;
    d <- pypow (1 + period_yield) n_periods ;;
    pv_face_value <- pydiv face_value d ;;
    Ok (pv_coupons + pv_face_value).

(** ** [calculate_yield_to_maturity] *)

Definition delta : Q := 1 # 10000.

(** The body of the [for] loop, run at most [iters] times; falling out of
    the loop (exhaustion or [break]) returns the current [ytm]. *)
Fixpoint ytm_loop (price face_value coupon_rate years_to_maturity : Q)
    (frequency : Z) (tolerance : Q) (iters : nat) (ytm : Q) : res Q :=
  match iters with
  | O => Ok ytm
  | S iters' =>
      calculated_price <-
        calculate_bond_price face_value coupon_rate years_to_maturity
          ytm frequency ;;
      if Qlt_le_dec (Qabs (calculated_price - price)) tolerance then Ok ytm
      else
        price_up <-
          calculate_bond_price face_value coupon_rate years_to_maturity
            (ytm + delta) frequency ;;
        derivative <- pydiv (price_up - calculated_price) delta ;;
        if Qeq_bool derivative 0 then Ok ytm
        else
          step <- pydiv (calculated_price - price) derivative ;;
          ytm_loop price face_value coupon_rate years_to_maturity
            frequency tolerance iters' (ytm - step)
  end.

Definition calculate_yield_to_maturity
    (price face_value coupon_rate years_to_maturity : Q)
    (frequency : Z) (tolerance : Q) (max_iterations : Z) : res Q :=
  ytm_loop price face_value coupon_rate years_to_maturity frequency
    tolerance (Z.to_nat max_iterations) coupon_rate.

Definition default_tolerance : Q := 1 # 10000.
Definition default_max_iterations : Z := 100.

(** ** Duration and convexity *)

(** Cash flow of period [t]: the coupon, plus the face value at the last
    period. *)
Definition cash_flow_at (coupon_payment face_value : Q) (n_periods t : Z)
  : Q :=
  if (t =? n_periods)%Z then coupon_payment + face_value
  else coupon_payment.

(** The [for t in range(1, n_periods + 1)] loop of the Macaulay duration,
    over the remaining values [ts] of [t]. *)
Fixpoint macaulay_loop (coupon_payment face_value period_yield : Q)
    (n_periods frequency : Z) (ts : list Z) (weighted_cash_flows : Q)
  : res Q :=
  match ts with
  | [] => Ok weighted_cash_flows
  | t :: ts' =>
      let cash_flow := cash_flow_at coupon_payment face_value n_periods t in
      d <- pypow (1 + period_yield) t ;;
      pv_cash_flow <- pydiv cash_flow d ;;
      time_in_years <- pydiv (inject_Z t) (inject_Z frequency) ;;
      macaulay_loop coupon_payment face_value period_yield n_periods
        frequency ts' (weighted_cash_flows + time_in_years * pv_cash_flow)
  end.

(** The same loop in the convexity, weighting by [t * (t + 1)]. *)
Fixpoint convexity_loop (coupon_payment face_value period_yield : Q)
    (n_periods : Z) (ts : list Z) (convexity_sum : Q) : res Q :=
  match ts with
  | [] => Ok convexity_sum
  | t :: ts' =>
      let cash_flow := cash_flow_at coupon_payment face_value n_periods t in
      d <- pypow (1 + period_yield) t ;;
      pv_cash_flow <- pydiv cash_flow d ;;
      convexity_loop coupon_payment face_value period_yield n_periods
        ts' (convexity_sum + inject_Z (t * (t + 1)) * pv_cash_flow)
  end.

Definition calculate_macaulay_duration
    (face_value coupon_rate years_to_maturity yield_rate : Q)
    (frequency : Z) : res Q :=
  let n_periods := py_int (years_to_maturity * (inject_Z frequency)) in
  coupon_payment <- pydiv (face_value * coupon_rate) (inject_Z frequency) ;;
  period_yield <- pydiv yield_rate (inject_Z frequency) ;;
  price <-
    calculate_bond_price face_value coupon_rate years_to_maturity
      yield_rate frequency ;;
  weighted_cash_flows <-
    macaulay_loop coupon_payment face_value period_yield n_periods
      frequency (range1 n_periods) 0 ;;
  pydiv weighted_cash_flows price.

Definition calculate_modified_duration
    (face_value coupon_rate years_to_maturity yield_rate : Q)
    (frequency : Z) : res Q :=
  mac_duration <-
    calculate_macaulay_duration face_value coupon_rate years_to_maturity
      yield_rate frequency ;;
  period_yield <- pydiv yield_rate (inject_Z frequency) ;;
  pydiv mac_duration (1 + period_yield).

Definition calculate_convexity
    (face_value coupon_rate years_to_maturity yield_rate : Q)
    (frequency : Z) : res Q :=
  let n_periods := py_int (years_to_maturity * (inject_Z frequency)) in
  coupon_payment <- pydiv (face_value * coupon_rate) (inject_Z frequency) ;;
  period_yield <- pydiv yield_rate (inject_Z frequency) ;;
  price <-
    calculate_bond_price face_value coupon_rate years_to_maturity
      yield_rate frequency ;;
  convexity_sum <-
    convexity_loop coupon_payment face_value period_yield n_periods
      (range1 n_periods) 0 ;;
  x2 <- pypow (1 + period_yield) 2 ;;
  pydiv convexity_sum (price * x2 * (inject_Z (frequency ^ 2))).

Definition calculate_current_yield (price face_value coupon_rate : Q)
  : res Q :=
  let annual_coupon := face_value * coupon_rate in
  pydiv annual_coupon price.

(** ** Dates

    A naive [datetime] is the proleptic Gregorian ordinal of its day
    ([datetime.toordinal()]) and the microseconds elapsed within the day.
    The library accepts ordinals from 1 (0001-01-01) to 3652059
    (9999-12-31) and raises [OverflowError] outside. *)

Record datetime : Type := mk_datetime { toordinal : Z; day_micros : Z }.

Definition MINORDINAL : Z := 1.
Definition MAXORDINAL : Z := 3652059.
Definition micros_per_day : Z := 86400000000.

(** [timedelta(days=k)]: at most 999999999 days in magnitude. *)
Definition timedelta_days (k : Z) : res Z :=
  if (Z.abs k <=? 999999999)%Z then Ok k else Raise OverflowError.

(** [dt + timedelta(days=k)]. *)
Definition datetime_add_days (dt : datetime) (k : Z) : res datetime :=
  let o := (toordinal dt + k)%Z in
  if (MINORDINAL <=? o)%Z && (o <=? MAXORDINAL)%Z
  then Ok (mk_datetime o (day_micros dt))
  else Raise OverflowError.

(** [(a - b).days]: a [timedelta] is normalised with its seconds and
    microseconds non-negative, so [days] is the floor. *)
Definition days_between (a b : datetime) : Z :=
  (((toordinal a - toordinal b) * micros_per_day
    + (day_micros a - day_micros b)) / micros_per_day)%Z.

(** [a // b] on [int]. *)
Definition pyfloordiv (a b : Z) : res Z :=
  if (b =? 0)%Z then Raise ZeroDivisionError else Ok (a / b)%Z.

(** ** [calculate_accrued_interest] *)

Definition calculate_accrued_interest (face_value coupon_rate : Q)
    (last_coupon_date settlement_date : datetime) (frequency : Z) : res Q :=
  let days_since_last_coupon := days_between settlement_date last_coupon_date in
  days_in_period <- pydiv 365 (inject_Z frequency) ;;
  coupon_payment <- pydiv (face_value * coupon_rate) (inject_Z frequency) ;;
  fraction <- pydiv (inject_Z days_since_last_coupon) days_in_period ;;
  let accrued := coupon_payment * fraction in
  Ok accrued.

(** ** [generate_cash_flow_schedule] *)

(** The [for i in range(1, n_periods + 1)] loop, over the remaining
    values [idxs] of [i]; [schedule] is the list built so far. *)
Fixpoint schedule_loop (face_value coupon_payment : Q)
    (n_periods frequency : Z) (start_date : datetime) (idxs : list Z)
    (schedule : list (datetime * Q)) : res (list (datetime * Q)) :=
  match idxs with
  | [] => Ok schedule
  | i :: idxs' =>
      q <- pydiv (inject_Z (i * 365)) (inject_Z frequency) ;;
      td <- timedelta_days (py_int q) ;;
      payment_date <- datetime_add_days start_date td ;;
      let amount :=
        if (i =? n_periods)%Z then coupon_payment + face_value
        else coupon_payment in
      schedule_loop face_value coupon_payment n_periods frequency
        start_date idxs' (schedule ++ [(payment_date, amount)])
  end.

(** [now] is the reading of the clock, used when no start date is given. *)
Definition generate_cash_flow_schedule (now : datetime)
    (face_value coupon_rate years_to_maturity : Q) (frequency : Z)
    (start_date : option datetime) : res (list (datetime * Q)) :=
  let start_date :=
    match start_date with
    | None => now
    | Some d => d
    end in
  let n_periods := py_int (years_to_maturity * inject_Z frequency) in
  coupon_payment <- pydiv (face_value * coupon_rate) (inject_Z frequency) ;;
  months_between <- pyfloordiv 12 frequency ;;
  schedule_loop face_value coupon_payment n_periods frequency start_date
    (range1 n_periods) [].

(** ** The specification's wording of the payment day

    The specification places payment [i] at [round(i * 365 / frequency)]
    days after the start: rounding to the nearest integer, a tie going to
    the even neighbour as Python's [round] does. *)
Definition spec_round (q : Q) : Z :=
  let fl := Qfloor q in
  match Qcompare (q - inject_Z fl) (1 # 2) with
  | Lt => fl
  | Gt => (fl + 1)%Z
  | Eq => if Z.even fl then fl else (fl + 1)%Z
  end.

(** The specification's wording of the price: the zero-yield case on the
    unfloored product, the general case on [floor]. *)
Definition spec_bond_price (F c Y y : Q) (f : Z) : Q :=
  if Qeq_bool y 0 then (F * c / inject_Z f) * (Y * inject_Z f) + F
  else
    let n := Qfloor (Y * inject_Z f) in
    let i := y / inject_Z f in
    (F * c / inject_Z f) * (1 - (1 + i) ^ (- n)) / i + F / (1 + i) ^ n.

(** ** Runs of the Newton loop *)

Section NewtonRuns.

(** The arguments of one call of the solver. *)
Variables (price F c Y : Q) (f : Z) (tol : Q).

(** One full pass through the loop body that neither returns nor
    breaks: the price at [ytm] misses the target by at least the
    tolerance, the finite-difference derivative is not zero, and [ytm']
    is the update. *)
Inductive newton_step (ytm ytm' : Q) : Prop :=
| newton_step_intro (calculated_price price_up : Q) :
    calculate_bond_price F c Y ytm f = Ok calculated_price ->
    tol <= Qabs (calculated_price - price) ->
    calculate_bond_price F c Y (ytm + delta) f = Ok price_up ->
    ~ (price_up - calculated_price) / delta == 0 ->
    ytm' = ytm - (calculated_price - price)
                 / ((price_up - calculated_price) / delta) ->
    newton_step ytm ytm'.

(** [newton_run k y y']: [k] such passes lead from [y] to [y']. *)
Inductive newton_run : nat -> Q -> Q -> Prop :=
| newton_run_done (y : Q) : newton_run 0 y y
| newton_run_step (k : nat) (y y' y'' : Q) :
    newton_step y y' -> newton_run k y' y'' -> newton_run (S k) y y''.

(** The pass through the loop body at [ytm] reaches the [break]: not
    converged, and the derivative is exactly zero. *)
Definition zero_derivative_at (ytm : Q) : Prop :=
  exists calculated_price price_up,
    calculate_bond_price F c Y ytm f = Ok calculated_price /\
    tol <= Qabs (calculated_price - price) /\
    calculate_bond_price F c Y (ytm + delta) f = Ok price_up /\
    (price_up - calculated_price) / delta == 0.

(** The pass through the loop body at [ytm] returns at the tolerance
    test. *)
Definition converged_at (ytm : Q) : Prop :=
  exists calculated_price,
    calculate_bond_price F c Y ytm f = Ok calculated_price /\
    Qabs (calculated_price - price) < tol.

End NewtonRuns.

(** ** Bond terms the specification calls valid (data model, section 3) *)
Definition valid_bond_terms (F c Y : Q) (f : Z) : Prop :=
  0 < F /\ 0 <= c /\ 0 < Y /\ (0 < f)%Z /\
  (1 <= Qfloor (Y * inject_Z f))%Z.

(** ** Yields at which the annuity formula is numerically meaningful

    [yield_rate == 0] takes the special case of [calculate_bond_price];
    otherwise [|yield_rate / frequency|] is at least [1e-6], which keeps
    the cancellation in [1 - (1 + period_yield) ** -n_periods] at the
    level of rounding. *)
Definition yield_resolved (y : Q) (f : Z) : Prop :=
  y == 0 \/ (1 # 1000000) <= Qabs (y / inject_Z f).

(** ** Discounted cash flows

    [annuity v n] is [v + v^2 + ... + v^n], the present value of one unit
    paid at each of [n] periods under the discount factor [v]. *)
Fixpoint annuity (v : Q) (n : nat) : Q :=
  match n with
  | O => 0
  | S k => v * (1 + annuity v k)
  end.

Definition dcf_price (C F v : Q) (n : nat) : Q :=
  C * annuity v n + F * v ^ Z.of_nat n.

(** ** Slopes of the discounted cash flows

    [pow_quotient u w t] is [u^(t-1) + u^(t-2) w + ... + w^(t-1)], the
    quotient of [u^t - w^t] by [u - w]; [annuity_slope] and [dcf_slope]
    are the same quotient for [annuity] and for [dcf_price]: the slope of
    the chord of the price between the discount factors [u] and [w]. *)
Fixpoint pow_quotient (u w : Q) (t : nat) : Q :=
  match t with
  | O => 0
  | S k => u ^ Z.of_nat k + w * pow_quotient u w k
  end.

Fixpoint annuity_slope (u w : Q) (n : nat) : Q :=
  match n with
  | O => 0
  | S k => 1 + annuity u k + w * annuity_slope u w k
  end.

Definition dcf_slope (C F u w : Q) (n : nat) : Q :=
  C * annuity_slope u w n + F * pow_quotient u w n.

(** ** Sums of discounted cash flows

    [weighted_pv w C F x n ts] adds, over the periods [ts], the cash flow
    of the period discounted by [x ^ t] and weighted by [w t]: what the
    loops of the duration and of the convexity accumulate. *)
Fixpoint weighted_pv (w : Z -> Q) (C F x : Q) (n : Z) (ts : list Z) : Q :=
  match ts with
  | [] => 0
  | t :: ts' =>
      w t * (cash_flow_at C F n t / x ^ t) + weighted_pv w C F x n ts'
  end.

(** The present value of a list of amounts paid at the periods [k],
    [k + 1], ... under the discount base [x]. *)
Fixpoint present_value_from (x : Q) (k : Z) (amounts : list Q) : Q :=
  match amounts with
  | [] => 0
  | a :: rest => a / x ^ k + present_value_from x (k + 1) rest
  end.

Definition present_value (x : Q) (amounts : list Q) : Q :=
  present_value_from x 1 amounts.

(** [sum(...)] of Python over a list of floats: from 0, left to right. *)
Definition pysum (l : list Q) : Q := fold_left Qplus l 0.

(** ** Data models ([cores/data_models.py]) *)

(** [a < b] on naive datetimes. *)
Definition datetime_ltb (a b : datetime) : bool :=
  (toordinal a <? toordinal b)%Z
  || ((toordinal a =? toordinal b)%Z && (day_micros a <? day_micros b)%Z).

Inductive BondType : Type :=
| GOVERNMENT | CORPORATE | MUNICIPAL | CONVERTIBLE | ZERO_COUPON.

Inductive CreditRating : Type :=
| AAA | AA | A | BBB | BB | B | CCC | CC | C | D.

Definition BondType_eqb (a b : BondType) : bool :=
  match a, b with
  | GOVERNMENT, GOVERNMENT | CORPORATE, CORPORATE | MUNICIPAL, MUNICIPAL
  | CONVERTIBLE, CONVERTIBLE | ZERO_COUPON, ZERO_COUPON => true
  | _, _ => false
  end.

Definition CreditRating_eqb (a b : CreditRating) : bool :=
  match a, b with
  | AAA, AAA | AA, AA | A, A | BBB, BBB | BB, BB | B, B | CCC, CCC
  | CC, CC | C, C | D, D => true
  | _, _ => false
  end.

Module Bond.

Record t : Type := mk {
  name : String.string;
  isin : String.string;
  face_value : Q;
  coupon_rate : Q;
  issue_date : datetime;
  maturity_date : datetime;
  frequency : Z;
  bond_type : BondType;
  credit_rating : option CreditRating;
  issuer : String.string;
  currency : String.string
}.

(** [now] is the reading of the clock, used when no date is given.  The
    divisor is the literal 365.25. *)
Definition years_to_maturity (now : datetime) (self : t)
    (from_date : option datetime) : Q :=
  let from_date :=
    match from_date with
    | None => now
    | Some d => d
    end in
  let days_to_maturity := days_between (maturity_date self) from_date in
  inject_Z days_to_maturity / (1461 # 4).

Definition is_active (now : datetime) (self : t) : bool :=
  datetime_ltb now (maturity_date self).

End Bond.

Module BondPosition.

Record t : Type := mk {
  bond : Bond.t;
  quantity : Z;
  purchase_price : Q;
  purchase_date : datetime;
  current_price : option Q
}.

(** [self.current_price if self.current_price else self.purchase_price]:
    [None] and [0.0] are both falsy. *)
Definition market_value (self : t) : Q :=
  let price :=
    match current_price self with
    | Some p => if Qeq_bool p 0 then purchase_price self else p
    | None => purchase_price self
    end in
  inject_Z (quantity self) * price.

Definition book_value (self : t) : Q :=
  inject_Z (quantity self) * purchase_price self.

Definition unrealized_pnl (self : t) : Q :=
  match current_price self with
  | None => 0
  | Some p => (p - purchase_price self) * inject_Z (quantity self)
  end.

Definition unrealized_pnl_percent (self : t) : res Q :=
  match current_price self with
  | None => Ok 0
  | Some p =>
      r <- pydiv (p - purchase_price self) (purchase_price self) ;;
      Ok (r * 100)
  end.

End BondPosition.

Module Portfolio.

Record t : Type := mk {
  name : String.string;
  positions : list BondPosition.t;
  currency : String.string
}.

Definition add_position (self : t) (position : BondPosition.t) : t :=
  mk (name self) (positions self ++ [position]) (currency self).

Definition remove_position (self : t) (isin : String.string) : t :=
  mk (name self)
     (filter (fun p => negb (String.eqb (Bond.isin (BondPosition.bond p)) isin))
             (positions self))
     (currency self).

Definition total_market_value (self : t) : Q :=
  pysum (map BondPosition.market_value (positions self)).

Definition total_book_value (self : t) : Q :=
  pysum (map BondPosition.book_value (positions self)).

Definition total_unrealized_pnl (self : t) : Q :=
  pysum (map BondPosition.unrealized_pnl (positions self)).

Definition total_unrealized_pnl_percent (self : t) : res Q :=
  let book_value := total_book_value self in
  if Qeq_bool book_value 0 then Ok 0
  else
    r <- pydiv (total_unrealized_pnl self) book_value ;;
    Ok (r * 100).

Definition get_position_by_isin (self : t) (isin : String.string)
  : option BondPosition.t :=
  find (fun p => String.eqb (Bond.isin (BondPosition.bond p)) isin)
       (positions self).

Definition get_positions_by_type (self : t) (bond_type : BondType)
  : list BondPosition.t :=
  filter (fun p => BondType_eqb (Bond.bond_type (BondPosition.bond p)) bond_type)
         (positions self).

Definition get_positions_by_rating (self : t) (rating : CreditRating)
  : list BondPosition.t :=
  filter (fun p =>
            match Bond.credit_rating (BondPosition.bond p) with
            | Some r => CreditRating_eqb r rating
            | None => false
            end)
         (positions self).

End Portfolio.

(** ** Elementary facts about the Python primitives *)

Lemma pydiv_ok (a b : Q) : ~ b == 0 -> pydiv a b = Ok (a / b).
Proof.
  intro Hb. unfold pydiv.
  destruct (Qeq_bool b 0) eqn:E; [|reflexivity].
  apply Qeq_bool_iff in E. contradiction.
Qed.

Lemma pydiv_zero (a b : Q) : b == 0 -> pydiv a b = Raise ZeroDivisionError.
Proof.
  intro Hb. unfold pydiv. apply Qeq_bool_iff in Hb. now rewrite Hb.
Qed.

Lemma pypow_ok (x : Q) (n : Z) :
  ~ x == 0 \/ (0 <= n)%Z -> pypow x n = Ok (x ^ n).
Proof.
  intros H. unfold pypow.
  destruct (Qeq_bool x 0) eqn:E; [|reflexivity].
  destruct (Z.ltb_spec n 0); [|reflexivity].
  apply Qeq_bool_iff in E. destruct H; [contradiction | lia].
Qed.

Lemma pypow_zero_neg (x : Q) (n : Z) :
  x == 0 -> (n < 0)%Z -> pypow x n = Raise ZeroDivisionError.
Proof.
  intros Hx Hn. unfold pypow. apply Qeq_bool_iff in Hx. rewrite Hx.
  apply Z.ltb_lt in Hn. now rewrite Hn.
Qed.

Lemma inject_Z_nonzero (f : Z) : (f <> 0)%Z -> ~ inject_Z f == 0.
Proof.
  intros Hf H. apply Hf. unfold Qeq, inject_Z in H. simpl in H. lia.
Qed.

Lemma inject_Z_pos (f : Z) : (0 < f)%Z -> 0 < inject_Z f.
Proof. intro H. unfold Qlt, inject_Z. simpl. lia. Qed.

(** [int] agrees with [floor] on non-negative numbers. *)
Lemma py_int_floor (q : Q) : 0 <= q -> py_int q = Qfloor q.
Proof.
  destruct q as [a b]. unfold Qle, py_int, Qfloor. simpl. intro H.
  apply Z.quot_div_nonneg; lia.
Qed.

Lemma Qfloor_zero_bounds (q : Q) : Qfloor q = 0%Z -> 0 <= q < 1.
Proof.
  intro H. pose proof (Qfloor_le q) as H1. pose proof (Qlt_floor q) as H2.
  rewrite H in H1, H2. simpl in H2. split; [exact H1 | exact H2].
Qed.

(** ** The price in closed form *)

(** On a non-zero yield, away from the pole [1 + yield/frequency = 0] (or
    with no period at all), the pricer returns the annuity formula on
    [int(years * frequency)] periods. *)
Lemma price_general (F c Y y : Q) (f : Z) :
  (0 < f)%Z -> ~ y == 0 ->
  ~ 1 + y / inject_Z f == 0 \/ py_int (Y * inject_Z f) = 0%Z ->
  calculate_bond_price F c Y y f =
  Ok ((F * c / inject_Z f)
        * (1 - (1 + y / inject_Z f) ^ (- py_int (Y * inject_Z f)))
        / (y / inject_Z f)
      + F / (1 + y / inject_Z f) ^ py_int (Y * inject_Z f)).
Proof.
  intros Hf Hy Hx. unfold calculate_bond_price.
  assert (Hf0 : ~ inject_Z f == 0) by (apply inject_Z_nonzero; lia).
  destruct (Qeq_bool y 0) eqn:E; [apply Qeq_bool_iff in E; contradiction|].
  rewrite !pydiv_ok by assumption. cbn [bind].
  assert (Hi : ~ y / inject_Z f == 0).
  { intro H. apply Hy. rewrite <- (Qmult_div_r y (inject_Z f)) by assumption.
    rewrite H. ring. }
  destruct (Qeq_bool (y / inject_Z f) 0) eqn:E2;
    [apply Qeq_bool_iff in E2; contradiction|].
  cbn [negb].
  rewrite pypow_ok by (destruct Hx as [Hx|Hx]; [now left | right; lia]).
  cbn [bind]. rewrite pydiv_ok by assumption. cbn [bind].
  rewrite pypow_ok by (destruct Hx as [Hx|Hx]; [now left | right; lia]).
  cbn [bind]. rewrite pydiv_ok; [reflexivity|].
  destruct Hx as [Hx|Hx].
  - now apply Qpower_not_0.
  - rewrite Hx. simpl. discriminate.
Qed.

(** On a zero yield the pricer multiplies by the unfloored
    [years * frequency]. *)
Lemma price_zero_yield (F c Y y : Q) (f : Z) :
  (0 < f)%Z -> y == 0 ->
  calculate_bond_price F c Y y f =
  Ok (F * c / inject_Z f * Y * inject_Z f + F).
Proof.
  intros Hf Hy. unfold calculate_bond_price.
  apply Qeq_bool_iff in Hy. rewrite Hy.
  rewrite pydiv_ok by (apply inject_Z_nonzero; lia). reflexivity.
Qed.

(** At the pole with at least one period (of either sign) the power
    raises. *)
Lemma price_pole (F c Y y : Q) (f : Z) :
  (0 < f)%Z -> 1 + y / inject_Z f == 0 ->
  py_int (Y * inject_Z f) <> 0%Z ->
  calculate_bond_price F c Y y f = Raise ZeroDivisionError.
Proof.
  intros Hf Hx Hn. unfold calculate_bond_price.
  assert (Hf0 : ~ inject_Z f == 0) by (apply inject_Z_nonzero; lia).
  assert (Hi : ~ y / inject_Z f == 0) by (intro H; rewrite H in Hx; lra).
  assert (Hy : ~ y == 0).
  { intro H. apply Hi. rewrite H. unfold Qdiv. ring. }
  destruct (Qeq_bool y 0) eqn:E; [apply Qeq_bool_iff in E; contradiction|].
  rewrite !pydiv_ok by assumption. cbn [bind].
  destruct (Qeq_bool (y / inject_Z f) 0) eqn:E2;
    [apply Qeq_bool_iff in E2; contradiction|].
  cbn [negb].
  destruct (Z.lt_trichotomy (py_int (Y * inject_Z f)) 0) as [Hlt|[Heq|Hgt]].
  - rewrite (pypow_ok _ (- _)) by (right; lia). cbn [bind].
    rewrite pydiv_ok by assumption. cbn [bind].
    now rewrite pypow_zero_neg.
  - contradiction.
  - rewrite pypow_zero_neg; [reflexivity | assumption | lia].
Qed.

(** ** The price formula (C1, C6, C10) *)

(** C1, as the code has it: on a zero yield the price is
    [(F*c/f) * (Y*f) + F] with the unfloored product; otherwise, with
    [n = int(Y*f)] (truncation toward zero) and [i = yield/f], away from the
    pole [1 + i = 0], it is [(F*c/f) * (1 - (1+i)^(-n)) / i + F/(1+i)^n].
    For [Y >= 0] truncation and floor agree and the price is the
    specification's formula. *)
Theorem bond_price_closed_form (F c Y y : Q) (f : Z) :
  (0 < f)%Z ->
  let n := py_int (Y * inject_Z f) in
  let i := y / inject_Z f in
  (y == 0 ->
   exists p, calculate_bond_price F c Y y f = Ok p /\
             p == (F * c / inject_Z f) * (Y * inject_Z f) + F) /\
  (~ y == 0 -> ~ 1 + i == 0 \/ n = 0%Z ->
   exists p, calculate_bond_price F c Y y f = Ok p /\
             p == (F * c / inject_Z f) * (1 - (1 + i) ^ (- n)) / i
                  + F / (1 + i) ^ n) /\
  (0 <= Y -> ~ 1 + i == 0 \/ n = 0%Z ->
   n = Qfloor (Y * inject_Z f) /\
   exists p, calculate_bond_price F c Y y f = Ok p /\
             p == spec_bond_price F c Y y f).
Proof.
  intros Hf n i.
  assert (Hzero : y == 0 ->
    exists p, calculate_bond_price F c Y y f = Ok p /\
              p == (F * c / inject_Z f) * (Y * inject_Z f) + F).
  { intro Hy. rewrite (price_zero_yield F c Y y f Hf Hy).
    eexists; split; [reflexivity | ring]. }
  assert (Hgen : ~ y == 0 -> ~ 1 + i == 0 \/ n = 0%Z ->
    exists p, calculate_bond_price F c Y y f = Ok p /\
              p == (F * c / inject_Z f) * (1 - (1 + i) ^ (- n)) / i
                   + F / (1 + i) ^ n).
  { intros Hy Hx. rewrite (price_general F c Y y f Hf Hy Hx).
    eexists; split; reflexivity. }
  split; [exact Hzero | split; [exact Hgen |]].
  intros HY Hx.
  assert (Hn : n = Qfloor (Y * inject_Z f)).
  { apply py_int_floor. pose proof (inject_Z_pos f Hf). nra. }
  split; [exact Hn |].
  unfold spec_bond_price. destruct (Qeq_bool y 0) eqn:E.
  - apply Hzero. now apply Qeq_bool_iff.
  - rewrite <- Hn. apply Hgen; [|exact Hx].
    intro H. apply Qeq_bool_iff in H. congruence.
Qed.

Lemma bond_price_closed_form_witness :
  exists p, calculate_bond_price 1000 (1 # 20) 5 (3 # 50) 2 = Ok p /\
            p == spec_bond_price 1000 (1 # 20) 5 (3 # 50) 2.
Proof.
  destruct (bond_price_closed_form 1000 (1 # 20) 5 (3 # 50) 2 eq_refl)
    as (_ & _ & H).
  apply H; [discriminate | left; discriminate].
Defined.

(** C1 as worded fails for a negative maturity: [int(-1.5) = -1] where
    [floor(-1.5) = -2]. *)
Lemma bond_price_floor_counterexample :
  calculate_bond_price 1000 0 (- 3 # 2) 1 1 = Ok 2000 /\
  spec_bond_price 1000 0 (- 3 # 2) 1 1 == 4000 /\
  ~ 2000 == 4000.
Proof.
  split; [vm_compute; reflexivity | split; [vm_compute; reflexivity|]].
  discriminate.
Qed.

(** C6, as the code has it: the pricer returns a number for every yield
    except at the pole [1 + yield/f = 0] with a non-zero period count,
    where the power raises [ZeroDivisionError]. *)
Theorem bond_price_total_off_pole (F c Y y : Q) (f : Z) :
  (0 < f)%Z ->
  let n := py_int (Y * inject_Z f) in
  let i := y / inject_Z f in
  (~ 1 + i == 0 \/ n = 0%Z ->
   exists p, calculate_bond_price F c Y y f = Ok p) /\
  (1 + i == 0 -> n <> 0%Z ->
   calculate_bond_price F c Y y f = Raise ZeroDivisionError).
Proof.
  intros Hf n i. split.
  - intro Hx. destruct (Qeq_dec y 0) as [Hy|Hy].
    + rewrite (price_zero_yield F c Y y f Hf Hy). eexists; reflexivity.
    + rewrite (price_general F c Y y f Hf Hy Hx). eexists; reflexivity.
  - intros Hx Hn. now apply price_pole.
Qed.

Lemma bond_price_total_off_pole_witness :
  (exists p, calculate_bond_price 1000 (1 # 20) 5 (- 1 # 100) 2 = Ok p).
Proof.
  destruct (bond_price_total_off_pole 1000 (1 # 20) 5 (- 1 # 100) 2 eq_refl)
    as (H & _).
  apply H. left; discriminate.
Defined.

(** C6 as worded fails at [yield_rate = -frequency]:
    [0.0 ** -10] raises. *)
Lemma bond_price_pole_counterexample :
  calculate_bond_price 1000 (1 # 20) 5 (- 2) 2 = Raise ZeroDivisionError.
Proof. vm_compute. reflexivity. Qed.

(** C10: with a non-zero yield off the pole and
    [years_to_maturity * frequency < 1], so that the period count
    [floor(years_to_maturity * frequency)] is 0, the price is exactly the
    face value, whatever the coupon and the yield. *)
Theorem zero_period_price_is_face_value (F c Y y : Q) (f : Z) :
  (0 < f)%Z -> ~ y == 0 -> ~ 1 + y / inject_Z f == 0 ->
  Y * inject_Z f < 1 -> Qfloor (Y * inject_Z f) = 0%Z ->
  exists p, calculate_bond_price F c Y y f = Ok p /\ p == F.
Proof.
  intros Hf Hy Hx _ Hfl.
  assert (Hn : py_int (Y * inject_Z f) = 0%Z).
  { rewrite py_int_floor; [exact Hfl|]. now apply Qfloor_zero_bounds. }
  rewrite (price_general F c Y y f Hf Hy (or_introl Hx)).
  eexists; split; [reflexivity|].
  rewrite Hn. simpl Z.opp. simpl Qpower.
  assert (Hf0 : ~ inject_Z f == 0) by (apply inject_Z_nonzero; lia).
  field. split; assumption.
Qed.

Lemma zero_period_price_is_face_value_witness :
  exists p, calculate_bond_price 1000 (1 # 20) (3 # 10) (1 # 25) 2 = Ok p /\
            p == 1000.
Proof.
  apply (zero_period_price_is_face_value 1000 (1 # 20) (3 # 10) (1 # 25) 2);
    [reflexivity | discriminate | discriminate | reflexivity | reflexivity].
Defined.

(** ** Accrued interest (C9) *)

(** C9: the accrual is [(F*c/f) * (d / (365/f))] with
    [d = (settlement_date - last_coupon_date).days]; a negative [d] is not
    rejected, and on a positive coupon it yields a negative accrual. *)
Theorem accrued_interest_formula (F c : Q)
    (last_coupon_date settlement_date : datetime) (f : Z) :
  (0 < f)%Z ->
  let d := days_between settlement_date last_coupon_date in
  exists a,
    calculate_accrued_interest F c last_coupon_date settlement_date f = Ok a /\
    a == (F * c / inject_Z f) * (inject_Z d / (365 / inject_Z f)) /\
    ((d < 0)%Z -> 0 < F * c -> a < 0).
Proof.
  intros Hf d. unfold calculate_accrued_interest. fold d.
  pose proof (inject_Z_pos f Hf) as Hfp.
  assert (Hf0 : ~ inject_Z f == 0) by lra.
  assert (Hp : 0 < 365 / inject_Z f).
  { apply Qlt_shift_div_l; [exact Hfp | lra]. }
  rewrite !pydiv_ok by lra. cbn [bind].
  rewrite pydiv_ok by lra. cbn [bind].
  eexists; split; [reflexivity | split; [reflexivity|]].
  intros Hd Hc.
  assert (Hcp : 0 < F * c / inject_Z f).
  { apply Qlt_shift_div_l; [exact Hfp | lra]. }
  assert (Hdn : inject_Z d / (365 / inject_Z f) < 0).
  { apply Qlt_shift_div_r; [exact Hp|].
    assert (inject_Z d < 0) by (unfold Qlt, inject_Z; simpl; lia). lra. }
  nra.
Qed.

Lemma accrued_interest_formula_witness :
  exists a,
    calculate_accrued_interest 1000 (3 # 50)
      (mk_datetime 738000 0) (mk_datetime 738045 0) 2 = Ok a /\
    a == (1000 * (3 # 50) / 2) * (45 / (365 / 2)).
Proof.
  destruct (accrued_interest_formula 1000 (3 # 50)
              (mk_datetime 738000 0) (mk_datetime 738045 0) 2 eq_refl)
    as (a & Ha & Hv & _).
  exists a. split; [exact Ha | exact Hv].
Defined.

(** ** Silent non-convergence of the solver (C7) *)

Lemma delta_nonzero : ~ delta == 0.
Proof. discriminate. Qed.

Section SolverLoop.

Variables (price F c Y : Q) (f : Z) (tol : Q).

Abbreviation loop := (ytm_loop price F c Y f tol).
Abbreviation step := (newton_step price F c Y f tol).
Abbreviation run := (newton_run price F c Y f tol).

Lemma ytm_loop_step (k : nat) (y y' : Q) :
  step y y' -> loop (S k) y = loop k y'.
Proof.
  intros [calc up Hc Htol Hu Hd ->]. cbn [ytm_loop].
  rewrite Hc. cbn [bind].
  destruct (Qlt_le_dec (Qabs (calc - price)) tol) as [Hlt|_]; [lra|].
  rewrite Hu. cbn [bind]. rewrite (pydiv_ok _ _ delta_nonzero). cbn [bind].
  destruct (Qeq_bool ((up - calc) / delta) 0) eqn:E;
    [apply Qeq_bool_iff in E; contradiction|].
  rewrite (pydiv_ok _ _ Hd). reflexivity.
Qed.

Lemma ytm_loop_run (k m : nat) (y y' : Q) :
  run k y y' -> loop (k + m) y = loop m y'.
Proof.
  induction 1 as [y | k y y1 y2 Hstep _ IH]; [reflexivity|].
  cbn [Nat.add]. rewrite (ytm_loop_step _ _ _ Hstep). exact IH.
Qed.

Lemma ytm_loop_break (m : nat) (y : Q) :
  zero_derivative_at price F c Y f tol y -> loop (S m) y = Ok y.
Proof.
  intros (calc & up & Hc & Htol & Hu & Hd). cbn [ytm_loop].
  rewrite Hc. cbn [bind].
  destruct (Qlt_le_dec (Qabs (calc - price)) tol) as [Hlt|_]; [lra|].
  rewrite Hu. cbn [bind]. rewrite (pydiv_ok _ _ delta_nonzero). cbn [bind].
  apply Qeq_bool_iff in Hd. now rewrite Hd.
Qed.

Lemma ytm_loop_converged (m : nat) (y : Q) :
  converged_at price F c Y f tol y -> loop (S m) y = Ok y.
Proof.
  intros (calc & Hc & Htol). cbn [ytm_loop].
  rewrite Hc. cbn [bind].
  destruct (Qlt_le_dec (Qabs (calc - price)) tol) as [_|Hle];
    [reflexivity | lra].
Qed.

(** The three ways out of the loop, seen from the caller. *)
Lemma solver_returns_on_break (max_iterations : Z) (j : nat) (y : Q) :
  (Z.of_nat j < max_iterations)%Z -> run j c y ->
  zero_derivative_at price F c Y f tol y ->
  calculate_yield_to_maturity price F c Y f tol max_iterations = Ok y.
Proof.
  intros Hj Hrun Hz. unfold calculate_yield_to_maturity.
  replace (Z.to_nat max_iterations)
    with (j + S (Z.to_nat max_iterations - S j))%nat by lia.
  rewrite (ytm_loop_run _ _ _ _ Hrun).
  now apply ytm_loop_break.
Qed.

Lemma solver_returns_exhausted (max_iterations : Z) (y : Q) :
  run (Z.to_nat max_iterations) c y ->
  calculate_yield_to_maturity price F c Y f tol max_iterations = Ok y.
Proof.
  intros Hrun. unfold calculate_yield_to_maturity.
  rewrite <- (Nat.add_0_r (Z.to_nat max_iterations)).
  now rewrite (ytm_loop_run _ _ _ _ Hrun).
Qed.

Lemma solver_returns_converged (max_iterations : Z) (j : nat) (y : Q) :
  (Z.of_nat j < max_iterations)%Z -> run j c y ->
  converged_at price F c Y f tol y ->
  calculate_yield_to_maturity price F c Y f tol max_iterations = Ok y.
Proof.
  intros Hj Hrun Hconv. unfold calculate_yield_to_maturity.
  replace (Z.to_nat max_iterations)
    with (j + S (Z.to_nat max_iterations - S j))%nat by lia.
  rewrite (ytm_loop_run _ _ _ _ Hrun).
  now apply ytm_loop_converged.
Qed.

End SolverLoop.

(** C7: non-convergence is silent.  If, after [j < max_iterations] full
    passes, the derivative at the current [ytm] is exactly zero, the solver
    returns that [ytm]; if all [max_iterations] passes run without the
    tolerance test succeeding, it returns the last iterate.  Both come
    back as [Ok ytm], the very shape of a converged result: the three
    concrete calls at the end return the same bare number [1/20], the
    first by breaking on a zero derivative, the second by exhausting
    [max_iterations = 0], the third by converging. *)
Theorem silent_non_convergence (price F c Y : Q) (f : Z) (tol : Q)
    (max_iterations : Z) :
  (forall (j : nat) (y : Q),
      (Z.of_nat j < max_iterations)%Z ->
      newton_run price F c Y f tol j c y ->
      zero_derivative_at price F c Y f tol y ->
      calculate_yield_to_maturity price F c Y f tol max_iterations = Ok y) /\
  (forall y : Q,
      newton_run price F c Y f tol (Z.to_nat max_iterations) c y ->
      calculate_yield_to_maturity price F c Y f tol max_iterations = Ok y) /\
  (forall (j : nat) (y : Q),
      (Z.of_nat j < max_iterations)%Z ->
      newton_run price F c Y f tol j c y ->
      converged_at price F c Y f tol y ->
      calculate_yield_to_maturity price F c Y f tol max_iterations = Ok y) /\
  (zero_derivative_at 950 1000 (1 # 20) (3 # 10) 1 default_tolerance (1 # 20) /\
   calculate_yield_to_maturity 950 1000 (1 # 20) (3 # 10) 1
     default_tolerance default_max_iterations = Ok (1 # 20)) /\
  calculate_yield_to_maturity 950 1000 (1 # 20) 5 2 default_tolerance 0
    = Ok (1 # 20) /\
  (converged_at 1000 1000 (1 # 20) 5 2 default_tolerance (1 # 20) /\
   calculate_yield_to_maturity 1000 1000 (1 # 20) 5 2
     default_tolerance default_max_iterations = Ok (1 # 20)).
Proof.
  split; [|split; [|split; [|split; [|split]]]].
  - intros j y. apply solver_returns_on_break.
  - intros y. apply solver_returns_exhausted.
  - intros j y. apply solver_returns_converged.
  - split; [|vm_compute; reflexivity].
    eexists; eexists.
    split; [vm_compute; reflexivity|].
    split; [vm_compute; discriminate|].
    split; [vm_compute; reflexivity|].
    vm_compute; reflexivity.
  - vm_compute; reflexivity.
  - split; [|vm_compute; reflexivity].
    eexists. split; [vm_compute; reflexivity | reflexivity].
Qed.

(** ** Discount factors, annuities and monotonicity *)

Lemma Qpow_succ (v : Q) (n : nat) :
  v ^ Z.of_nat (S n) == v * v ^ Z.of_nat n.
Proof.
  rewrite Nat2Z.inj_succ. unfold Z.succ.
  rewrite Qpower_plus' by lia. simpl (v ^ 1). ring.
Qed.

Lemma annuity_eq (v w : Q) (n : nat) :
  v == w -> annuity v n == annuity w n.
Proof.
  intro H. induction n as [|n IH]; [reflexivity|].
  simpl. rewrite IH, H. reflexivity.
Qed.

Lemma annuity_nonneg (v : Q) (n : nat) : 0 <= v -> 0 <= annuity v n.
Proof.
  intro Hv. induction n as [|n IH]; simpl; [lra | nra].
Qed.

Lemma annuity_mono (v w : Q) (n : nat) :
  0 <= v -> v <= w -> annuity v n <= annuity w n.
Proof.
  intros Hv Hvw. induction n as [|n IH]; simpl; [lra|].
  pose proof (annuity_nonneg v n Hv). nra.
Qed.

Lemma annuity_one (n : nat) : annuity 1 n == inject_Z (Z.of_nat n).
Proof.
  induction n as [|n IH]; [reflexivity|].
  simpl annuity. rewrite IH, Nat2Z.inj_succ. unfold Z.succ.
  rewrite inject_Z_plus. simpl (inject_Z 1). ring.
Qed.

Lemma Qpow_nat_nonneg (v : Q) (n : nat) : 0 <= v -> 0 <= v ^ Z.of_nat n.
Proof. intro Hv. now apply Qpower_0_le. Qed.

Lemma Qpow_nat_mono (v w : Q) (n : nat) :
  0 <= v -> v <= w -> v ^ Z.of_nat n <= w ^ Z.of_nat n.
Proof.
  intros Hv Hvw. induction n as [|n IH]; [simpl; lra|].
  rewrite !Qpow_succ. pose proof (Qpow_nat_nonneg v n Hv). nra.
Qed.

(** The closed form of the annuity: [(1 - x^(-n)) / (x - 1)] is the sum of
    the first [n] powers of the discount factor [1/x]. *)
Lemma annuity_closed (x : Q) (n : nat) :
  ~ x == 0 -> ~ x - 1 == 0 ->
  (1 - x ^ (- Z.of_nat n)) / (x - 1) == annuity (/ x) n.
Proof.
  intros Hx Hx1. induction n as [|n IH].
  - simpl. field. exact Hx1.
  - simpl annuity. rewrite <- IH.
    rewrite !Qpower_opp, <- !Qinv_power, Qpow_succ.
    field. split; assumption.
Qed.

Lemma dcf_price_mono (C F v w : Q) (n : nat) :
  0 <= C -> 0 <= F -> 0 <= v -> v <= w ->
  dcf_price C F v n <= dcf_price C F w n.
Proof.
  intros HC HF Hv Hvw. unfold dcf_price.
  pose proof (annuity_mono v w n Hv Hvw).
  pose proof (Qpow_nat_mono v w n Hv Hvw). nra.
Qed.

Lemma dcf_price_one (C F : Q) (n : nat) :
  dcf_price C F 1 n == C * inject_Z (Z.of_nat n) + F.
Proof.
  unfold dcf_price. rewrite annuity_one, Qpower_1. ring.
Qed.

Lemma dcf_price_eq (C F v w : Q) (N : nat) :
  v == w -> dcf_price C F v N == dcf_price C F w N.
Proof.
  intro H. unfold dcf_price. rewrite (annuity_eq v w N H), H. reflexivity.
Qed.

(** Off the zero yield, with a positive discount base and a non-negative
    period count, the price is the sum of the discounted cash flows. *)
Lemma price_as_dcf (F c Y y : Q) (f : Z) :
  (0 < f)%Z -> ~ y == 0 -> 0 < 1 + y / inject_Z f ->
  (0 <= py_int (Y * inject_Z f))%Z ->
  exists p,
    calculate_bond_price F c Y y f = Ok p /\
    p == dcf_price (F * c / inject_Z f) F (/ (1 + y / inject_Z f))
           (Z.to_nat (py_int (Y * inject_Z f))).
Proof.
  intros Hf Hy Hx Hn.
  assert (Hx0 : ~ 1 + y / inject_Z f == 0) by lra.
  rewrite (price_general F c Y y f Hf Hy (or_introl Hx0)).
  eexists; split; [reflexivity|].
  assert (Hf0 : ~ inject_Z f == 0) by (apply inject_Z_nonzero; lia).
  assert (Hi : ~ y / inject_Z f == 0).
  { intro H. apply Hy. rewrite <- (Qmult_div_r y (inject_Z f)) by assumption.
    rewrite H. ring. }
  set (x := 1 + y / inject_Z f) in *.
  set (n := py_int (Y * inject_Z f)) in *.
  assert (Hi' : ~ x - 1 == 0) by (unfold x; lra).
  unfold dcf_price.
  rewrite <- (annuity_closed x (Z.to_nat n) Hx0 Hi').
  rewrite Z2Nat.id by exact Hn.
  rewrite Qinv_power.
  assert (Hp : ~ x ^ n == 0) by now apply Qpower_not_0.
  assert (Hxi : y / inject_Z f == x - 1) by (unfold x; ring).
  rewrite Hxi. field. repeat split; assumption.
Qed.

Lemma discount_base_mono (y1 y2 : Q) (f : Z) :
  (0 < f)%Z -> y1 <= y2 -> 1 + y1 / inject_Z f <= 1 + y2 / inject_Z f.
Proof.
  intros Hf H. pose proof (inject_Z_pos f Hf) as Hfp.
  assert (y1 / inject_Z f <= y2 / inject_Z f).
  { unfold Qdiv. apply Qmult_le_compat_r; [exact H|].
    apply Qlt_le_weak, Qinv_lt_0_compat, Hfp. }
  lra.
Qed.

Lemma discount_base_sign (y : Q) (f : Z) :
  (0 < f)%Z ->
  (0 <= y -> 1 <= 1 + y / inject_Z f) /\ (y <= 0 -> 1 + y / inject_Z f <= 1).
Proof.
  intros Hf. pose proof (inject_Z_pos f Hf) as Hfp.
  pose proof (Qinv_lt_0_compat _ Hfp) as Hi.
  unfold Qdiv. split; intro H; nra.
Qed.

Lemma Qinv_antitone (a b : Q) : 0 < a -> a <= b -> 0 < / b /\ / b <= / a.
Proof.
  intros Ha Hab. assert (Hb : 0 < b) by lra.
  split; [now apply Qinv_lt_0_compat|].
  apply Qle_shift_inv_l; [exact Ha|].
  setoid_replace (/ b * a) with (a / b) by (unfold Qdiv; ring).
  apply Qle_shift_div_r; [exact Hb | lra].
Qed.

Lemma valid_terms_periods (F c Y : Q) (f : Z) :
  valid_bond_terms F c Y f ->
  py_int (Y * inject_Z f) = Qfloor (Y * inject_Z f) /\
  (1 <= py_int (Y * inject_Z f))%Z /\
  inject_Z (py_int (Y * inject_Z f)) <= Y * inject_Z f /\
  0 <= F * c / inject_Z f.
Proof.
  intros (HF & Hc & HY & Hf & Hn).
  pose proof (inject_Z_pos f Hf) as Hfp.
  assert (H0 : 0 <= Y * inject_Z f) by nra.
  rewrite (py_int_floor _ H0). repeat split; try assumption.
  - apply Qfloor_le.
  - apply Qle_shift_div_l; [exact Hfp | nra].
Qed.

(** ** Price against yield (C2) *)

(** At a discount factor of 1 the cash flows add up undiscounted. *)
Lemma dcf_price_undiscounted (C F : Q) (n : Z) :
  (0 <= n)%Z -> dcf_price C F (/ 1) (Z.to_nat n) == C * inject_Z n + F.
Proof.
  intro Hn. unfold dcf_price.
  rewrite (annuity_eq (/ 1) 1) by reflexivity.
  rewrite annuity_one, Z2Nat.id by exact Hn.
  setoid_replace (/ 1) with 1 by reflexivity. rewrite Qpower_1. ring.
Qed.

(** Between two non-zero yields above the pole the price falls as the
    yield rises. *)
Lemma price_antitone_off_zero (F c Y : Q) (f : Z) (y1 y2 : Q) :
  valid_bond_terms F c Y f ->
  y1 < y2 -> 0 < 1 + y1 / inject_Z f -> ~ y1 == 0 -> ~ y2 == 0 ->
  exists p1 p2,
    calculate_bond_price F c Y y1 f = Ok p1 /\
    calculate_bond_price F c Y y2 f = Ok p2 /\
    p2 <= p1.
Proof.
  intros Hv Hlt Hx1 Hy1 Hy2.
  destruct (valid_terms_periods F c Y f Hv) as (_ & Hn1 & _ & HC).
  destruct Hv as (HF & _ & _ & Hf & _).
  pose proof (discount_base_mono y1 y2 f Hf (Qlt_le_weak _ _ Hlt)) as Hx12.
  assert (Hx2 : 0 < 1 + y2 / inject_Z f) by lra.
  assert (Hn0 : (0 <= py_int (Y * inject_Z f))%Z) by lia.
  destruct (price_as_dcf F c Y y1 f Hf Hy1 Hx1 Hn0) as (p1 & -> & Hp1).
  destruct (price_as_dcf F c Y y2 f Hf Hy2 Hx2 Hn0) as (p2 & -> & Hp2).
  do 2 eexists; split; [reflexivity | split; [reflexivity|]].
  rewrite Hp1, Hp2.
  destruct (Qinv_antitone _ _ Hx1 Hx12) as (Hvpos & Hvle).
  apply dcf_price_mono; try assumption; lra.
Qed.

(** The zero-yield branch against a yield [y] of the general branch: the
    general price is the discounted sum over the floored period count,
    the zero-yield price the undiscounted sum over the unfloored one. *)
Lemma price_zero_branch_compare (F c Y y : Q) (f : Z) :
  valid_bond_terms F c Y f -> ~ y == 0 -> 0 < 1 + y / inject_Z f ->
  exists p p0,
    calculate_bond_price F c Y y f = Ok p /\
    calculate_bond_price F c Y 0 f = Ok p0 /\
    (0 < y -> p <= p0) /\
    (y < 0 -> inject_Z (Qfloor (Y * inject_Z f)) == Y * inject_Z f ->
     p0 <= p).
Proof.
  intros Hv Hy Hx.
  destruct (valid_terms_periods F c Y f Hv) as (Hnfl & Hn1 & Hnle & HC).
  destruct Hv as (HF & _ & _ & Hf & _).
  assert (Hn0 : (0 <= py_int (Y * inject_Z f))%Z) by lia.
  destruct (price_as_dcf F c Y y f Hf Hy Hx Hn0) as (p & -> & Hp).
  rewrite (price_zero_yield F c Y 0 f Hf ltac:(reflexivity)).
  do 2 eexists; split; [reflexivity | split; [reflexivity|]].
  rewrite <- Hnfl.
  set (n := py_int (Y * inject_Z f)) in *.
  set (C := F * c / inject_Z f) in *.
  pose proof (dcf_price_undiscounted C F n Hn0) as Hone.
  destruct (discount_base_sign y f Hf) as (Hge & Hle).
  split.
  - intro Hpos. assert (H1 : 1 <= 1 + y / inject_Z f) by (apply Hge; lra).
    destruct (Qinv_antitone 1 _ ltac:(lra) H1) as (Hvpos & Hvle).
    pose proof (dcf_price_mono C F _ (/ 1) (Z.to_nat n) HC
                  (Qlt_le_weak _ _ HF) (Qlt_le_weak _ _ Hvpos) Hvle) as Hm.
    rewrite Hp. rewrite Hone in Hm. nra.
  - intros Hneg Hwhole.
    assert (H1 : 1 + y / inject_Z f <= 1) by (apply Hle; lra).
    destruct (Qinv_antitone _ 1 Hx H1) as (Hvpos & Hvle).
    pose proof (dcf_price_mono C F (/ 1) _ (Z.to_nat n) HC
                  (Qlt_le_weak _ _ HF) (Qlt_le_weak _ _ Hvpos) Hvle) as Hm.
    rewrite Hp. rewrite Hone in Hm. nra.
Qed.

(** The price depends on a zero yield only through the test
    [yield_rate == 0]. *)
Lemma price_at_zero (F c Y y : Q) (f : Z) :
  y == 0 -> calculate_bond_price F c Y y f = calculate_bond_price F c Y 0 f.
Proof.
  intro Hy. unfold calculate_bond_price.
  apply Qeq_bool_iff in Hy. now rewrite Hy.
Qed.

(** C2, as the code has it: for valid bond terms and yields [y1 < y2]
    above the pole ([1 + y1/f > 0]), each of them exactly zero or at least
    [1e-6] per period in absolute value ([yield_resolved]), the price at
    [y1] is at least the price at [y2], provided the zero-yield branch is
    not the upper end of the comparison, or the period count
    [years * frequency] is a whole number.  Yields closer to zero than
    that are left out: there the binary64 annuity term cancels and the
    code's price drops towards the face value. *)
Theorem price_non_increasing_in_yield (F c Y : Q) (f : Z) (y1 y2 : Q) :
  valid_bond_terms F c Y f ->
  y1 < y2 ->
  0 < 1 + y1 / inject_Z f ->
  yield_resolved y1 f ->
  yield_resolved y2 f ->
  (y2 == 0 -> inject_Z (Qfloor (Y * inject_Z f)) == Y * inject_Z f) ->
  exists p1 p2,
    calculate_bond_price F c Y y1 f = Ok p1 /\
    calculate_bond_price F c Y y2 f = Ok p2 /\
    p2 <= p1.
Proof.
  intros Hv Hlt Hx1 _ _ Hint.
  assert (Hf : (0 < f)%Z) by (destruct Hv as (_ & _ & _ & Hf & _); exact Hf).
  pose proof (discount_base_mono y1 y2 f Hf (Qlt_le_weak _ _ Hlt)) as Hx12.
  destruct (Qeq_dec y1 0) as [Hy1|Hy1]; destruct (Qeq_dec y2 0) as [Hy2|Hy2].
  - lra.
  - (* the zero-yield branch is the lower yield *)
    destruct (price_zero_branch_compare F c Y y2 f Hv Hy2 ltac:(lra))
      as (p & p0 & Hp & Hp0 & Hle & _).
    exists p0, p. rewrite (price_at_zero F c Y y1 f Hy1).
    repeat split; try assumption. apply Hle. lra.
  - (* the zero-yield branch is the higher yield *)
    destruct (price_zero_branch_compare F c Y y1 f Hv Hy1 Hx1)
      as (p & p0 & Hp & Hp0 & _ & Hge).
    exists p, p0. rewrite (price_at_zero F c Y y2 f Hy2).
    repeat split; try assumption. apply Hge; [lra | now apply Hint].
  - now apply price_antitone_off_zero.
Qed.

Lemma price_non_increasing_in_yield_witness :
  exists p1 p2,
    calculate_bond_price 1000 (1 # 20) 5 (1 # 25) 2 = Ok p1 /\
    calculate_bond_price 1000 (1 # 20) 5 (3 # 50) 2 = Ok p2 /\
    p2 <= p1.
Proof.
  apply (price_non_increasing_in_yield 1000 (1 # 20) 5 2 (1 # 25) (3 # 50)).
  - repeat split; try reflexivity; discriminate.
  - reflexivity.
  - reflexivity.
  - right. vm_compute. discriminate.
  - right. vm_compute. discriminate.
  - discriminate.
Defined.

(** C2 as worded fails across the zero-yield branch: with one and a half
    periods the price at yield 0 counts the unfloored 1.5 coupons and
    exceeds the price at yield -1%.  It also fails across the pole: at
    annual frequency the price at yield -300% is negative and below the
    price at yield -50%. *)
Lemma price_monotonicity_counterexample :
  valid_bond_terms 1000 (1 # 10) (3 # 2) 1 /\
  - 1 # 100 < 0 /\
  (exists p1 p2,
    calculate_bond_price 1000 (1 # 10) (3 # 2) (- 1 # 100) 1 = Ok p1 /\
    calculate_bond_price 1000 (1 # 10) (3 # 2) 0 1 = Ok p2 /\
    p1 < p2) /\
  valid_bond_terms 1000 (1 # 20) 1 1 /\
  - (3) < - 1 # 2 /\
  (exists p1 p2,
    calculate_bond_price 1000 (1 # 20) 1 (- (3)) 1 = Ok p1 /\
    calculate_bond_price 1000 (1 # 20) 1 (- 1 # 2) 1 = Ok p2 /\
    p1 < p2).
Proof.
  split; [repeat split; try reflexivity; discriminate|].
  split; [reflexivity|].
  split.
  { do 2 eexists.
    split; [vm_compute; reflexivity|].
    split; [vm_compute; reflexivity|].
    reflexivity. }
  split; [repeat split; try reflexivity; discriminate|].
  split; [reflexivity|].
  do 2 eexists.
  split; [vm_compute; reflexivity|].
  split; [vm_compute; reflexivity|].
  reflexivity.
Qed.

Lemma annuity_pos_price (C F v : Q) (n : nat) :
  0 <= C -> 0 < F -> 0 < v -> 0 < dcf_price C F v n.
Proof.
  intros HC HF Hv. unfold dcf_price.
  pose proof (annuity_nonneg v n (Qlt_le_weak _ _ Hv)).
  pose proof (Qpower_0_lt v (Z.of_nat n) Hv). nra.
Qed.

(** ** Convexity (C8) *)

Lemma cash_flow_nonneg (C F : Q) (n t : Z) :
  0 <= C -> 0 <= F -> 0 <= cash_flow_at C F n t.
Proof.
  intros HC HF. unfold cash_flow_at. destruct (t =? n)%Z; lra.
Qed.

Lemma consecutive_product_nonneg (t : Z) : 0 <= inject_Z (t * (t + 1)).
Proof.
  unfold Qle, inject_Z. simpl. nia.
Qed.

Lemma convexity_loop_nonneg (C F i : Q) (n : Z) (ts : list Z) (acc : Q) :
  0 <= C -> 0 <= F -> 0 < 1 + i -> 0 <= acc ->
  exists s, convexity_loop C F i n ts acc = Ok s /\ 0 <= s.
Proof.
  intros HC HF Hx. revert acc.
  induction ts as [|t ts IH]; intros acc Hacc.
  - exists acc. split; [reflexivity | exact Hacc].
  - cbn [convexity_loop].
    rewrite pypow_ok by (left; lra). cbn [bind].
    pose proof (Qpower_0_lt (1 + i) t Hx) as Hp.
    rewrite pydiv_ok by lra. cbn [bind].
    apply IH.
    pose proof (cash_flow_nonneg C F n t HC HF) as Hcf.
    pose proof (consecutive_product_nonneg t) as Hw.
    assert (0 <= cash_flow_at C F n t / (1 + i) ^ t)
      by (apply Qle_shift_div_l; [exact Hp | lra]).
    nra.
Qed.

(** C8: for a conventional bond (positive face value, coupon and yield, at
    least one period) the convexity is computed and is non-negative. *)
Theorem convexity_nonneg (F c Y y : Q) (f : Z) :
  0 < F -> 0 < c -> 0 < y -> (0 < f)%Z ->
  (1 <= Qfloor (Y * inject_Z f))%Z ->
  exists v, calculate_convexity F c Y y f = Ok v /\ 0 <= v.
Proof.
  intros HF Hc Hy Hf Hn.
  pose proof (inject_Z_pos f Hf) as Hfp.
  assert (Hf0 : ~ inject_Z f == 0) by lra.
  assert (HYf : 0 <= Y * inject_Z f).
  { pose proof (Qlt_floor (Y * inject_Z f)) as H.
    destruct (Qlt_le_dec (Y * inject_Z f) 0) as [Hneg|]; [|assumption].
    exfalso.
    assert (Hle : (Qfloor (Y * inject_Z f) <= Qfloor 0)%Z)
      by (apply Qfloor_resp_le; lra).
    change (Qfloor 0) with 0%Z in Hle. lia. }
  assert (Hn' : (1 <= py_int (Y * inject_Z f))%Z)
    by (rewrite py_int_floor by exact HYf; exact Hn).
  assert (Hi : 0 < y / inject_Z f)
    by (apply Qlt_shift_div_l; [exact Hfp | lra]).
  assert (Hx : 0 < 1 + y / inject_Z f) by lra.
  assert (HC : 0 <= F * c / inject_Z f)
    by (apply Qle_shift_div_l; [exact Hfp | nra]).
  unfold calculate_convexity.
  rewrite !pydiv_ok by exact Hf0. cbn [bind].
  destruct (price_as_dcf F c Y y f Hf ltac:(lra) Hx ltac:(lia))
    as (p & -> & Hp).
  cbn [bind].
  assert (Hppos : 0 < p).
  { rewrite Hp. apply annuity_pos_price; try assumption.
    now apply Qinv_lt_0_compat. }
  destruct (convexity_loop_nonneg (F * c / inject_Z f) F (y / inject_Z f)
              (py_int (Y * inject_Z f)) (range1 (py_int (Y * inject_Z f))) 0
              HC (Qlt_le_weak _ _ HF) Hx ltac:(lra)) as (s & -> & Hs).
  cbn [bind]. rewrite pypow_ok by (right; lia). cbn [bind].
  pose proof (Qpower_0_lt (1 + y / inject_Z f) 2 Hx) as Hx2.
  assert (Hf2 : 0 < inject_Z (f ^ 2)).
  { apply inject_Z_pos. nia. }
  assert (Hden : 0 < p * (1 + y / inject_Z f) ^ 2 * inject_Z (f ^ 2))
    by (repeat apply Qmult_lt_0_compat; assumption).
  rewrite pydiv_ok by lra.
  eexists; split; [reflexivity|].
  apply Qle_shift_div_l; [exact Hden | lra].
Qed.

Lemma convexity_nonneg_witness :
  exists v, calculate_convexity 1000 (1 # 20) 5 (3 # 50) 2 = Ok v /\ 0 <= v.
Proof.
  apply (convexity_nonneg 1000 (1 # 20) 5 (3 # 50) 2);
    [reflexivity | reflexivity | reflexivity | reflexivity | discriminate].
Defined.

(** ** Macaulay duration of a zero-coupon bond (C4) *)

Lemma macaulay_loop_app (C F i : Q) (n f : Z) (ts1 ts2 : list Z) (acc : Q) :
  macaulay_loop C F i n f (ts1 ++ ts2) acc =
  (a <- macaulay_loop C F i n f ts1 acc ;; macaulay_loop C F i n f ts2 a).
Proof.
  revert acc. induction ts1 as [|t ts1 IH]; intro acc; [reflexivity|].
  cbn [app macaulay_loop].
  destruct (pypow (1 + i) t) as [d|e]; [|reflexivity]. cbn [bind].
  destruct (pydiv (cash_flow_at C F n t) d) as [pv|e]; [|reflexivity].
  cbn [bind].
  destruct (pydiv (inject_Z t) (inject_Z f)) as [ty|e]; [|reflexivity].
  cbn [bind]. apply IH.
Qed.

(** Without coupon, the periods before the last add nothing. *)
Lemma macaulay_loop_no_coupon (C F i : Q) (n f : Z) (ts : list Z) (acc : Q) :
  C == 0 -> 0 < 1 + i -> (f <> 0)%Z ->
  (forall t, In t ts -> t <> n) ->
  exists s, macaulay_loop C F i n f ts acc = Ok s /\ s == acc.
Proof.
  intros HC Hx Hf. revert acc.
  induction ts as [|t ts IH]; intros acc Hts.
  - exists acc. split; reflexivity.
  - cbn [macaulay_loop].
    rewrite pypow_ok by (left; lra). cbn [bind].
    pose proof (Qpower_0_lt (1 + i) t Hx) as Hp.
    rewrite pydiv_ok by lra. cbn [bind].
    rewrite pydiv_ok by (now apply inject_Z_nonzero). cbn [bind].
    destruct (IH (acc + inject_Z t / inject_Z f
                        * (cash_flow_at C F n t / (1 + i) ^ t)))
      as (s & Hs & Heq).
    { intros u Hu. apply Hts. now right. }
    exists s. split; [exact Hs|]. rewrite Heq.
    unfold cash_flow_at.
    assert (Hne : (t =? n)%Z = false)
      by (apply Z.eqb_neq, Hts; now left).
    rewrite Hne, HC. field. split; [lra | now apply inject_Z_nonzero].
Qed.

Lemma range1_last (n : Z) :
  (1 <= n)%Z ->
  range1 n = range1 (n - 1) ++ [n] /\
  (forall t, In t (range1 (n - 1)) -> t <> n).
Proof.
  intro Hn. unfold range1.
  replace (Z.to_nat n) with (S (Z.to_nat (n - 1))) by lia.
  rewrite seq_S, map_app. cbn [map Nat.add]. split.
  - f_equal. f_equal. lia.
  - intros t Ht. apply in_map_iff in Ht. destruct Ht as (k & <- & Hk).
    apply in_seq in Hk. lia.
Qed.

(** C4, as the code has it: for a zero-coupon bond with a non-zero face
    value, at least one period and a positive discount base, the Macaulay
    duration is the floored period count in years,
    [floor(years * frequency) / frequency]; it is [years_to_maturity]
    itself exactly when [years * frequency] is a whole number. *)
Theorem zero_coupon_duration (F c Y y : Q) (f : Z) :
  c == 0 -> ~ F == 0 -> (0 < f)%Z ->
  (1 <= Qfloor (Y * inject_Z f))%Z ->
  0 < 1 + y / inject_Z f ->
  exists d,
    calculate_macaulay_duration F c Y y f = Ok d /\
    d == inject_Z (Qfloor (Y * inject_Z f)) / inject_Z f /\
    (inject_Z (Qfloor (Y * inject_Z f)) == Y * inject_Z f -> d == Y).
Proof.
  intros Hc HF Hf Hn Hx.
  pose proof (inject_Z_pos f Hf) as Hfp.
  assert (Hf0 : ~ inject_Z f == 0) by lra.
  assert (HYf : 0 <= Y * inject_Z f).
  { destruct (Qlt_le_dec (Y * inject_Z f) 0) as [Hneg|]; [|assumption].
    exfalso.
    assert (Hle : (Qfloor (Y * inject_Z f) <= Qfloor 0)%Z)
      by (apply Qfloor_resp_le; lra).
    change (Qfloor 0) with 0%Z in Hle. lia. }
  rewrite <- (py_int_floor _ HYf) in *.
  set (n := py_int (Y * inject_Z f)) in *.
  assert (HC : F * c / inject_Z f == 0).
  { rewrite Hc. field. exact Hf0. }
  pose proof (Qpower_0_lt (1 + y / inject_Z f) n Hx) as Hxn.
  assert (Hprice : exists p, calculate_bond_price F c Y y f = Ok p /\
                             p == F / (1 + y / inject_Z f) ^ n).
  { destruct (Qeq_dec y 0) as [Hy|Hy].
    - rewrite (price_zero_yield F c Y y f Hf Hy).
      eexists; split; [reflexivity|].
      rewrite HC.
      assert (Hone : 1 + y / inject_Z f == 1) by (rewrite Hy; field; exact Hf0).
      rewrite Hone, Qpower_1. field.
    - assert (Hx0 : ~ 1 + y / inject_Z f == 0) by lra.
      rewrite (price_general F c Y y f Hf Hy (or_introl Hx0)).
      eexists; split; [reflexivity|]. fold n.
      rewrite HC. field. repeat split; try assumption; lra. }
  destruct Hprice as (p & Hp & Hpv).
  unfold calculate_macaulay_duration. fold n.
  rewrite !pydiv_ok by exact Hf0. cbn [bind]. rewrite Hp. cbn [bind].
  destruct (range1_last n Hn) as (-> & Hbefore).
  rewrite macaulay_loop_app.
  destruct (macaulay_loop_no_coupon (F * c / inject_Z f) F (y / inject_Z f)
              n f (range1 (n - 1)) 0 HC Hx ltac:(lia) Hbefore)
    as (s & -> & Hs).
  cbn [bind macaulay_loop].
  rewrite pypow_ok by (left; lra). cbn [bind].
  rewrite pydiv_ok by lra. cbn [bind].
  rewrite pydiv_ok by exact Hf0. cbn [bind].
  assert (Hp0 : ~ p == 0).
  { rewrite Hpv. intro H. apply HF.
    rewrite <- (Qmult_div_r F ((1 + y / inject_Z f) ^ n)) by lra.
    rewrite H. ring. }
  rewrite pydiv_ok by exact Hp0.
  eexists; split; [reflexivity|].
  assert (Hd : (s + inject_Z n / inject_Z f
                    * (cash_flow_at (F * c / inject_Z f) F n n
                       / (1 + y / inject_Z f) ^ n)) / p
               == inject_Z n / inject_Z f).
  { unfold cash_flow_at. rewrite Z.eqb_refl, Hs, HC.
    setoid_replace (0 + inject_Z n / inject_Z f
                        * ((0 + F) / (1 + y / inject_Z f) ^ n))
      with (inject_Z n / inject_Z f * p)
      by (rewrite Hpv; field; split; [lra | exact Hf0]).
    field. split; assumption. }
  split; [exact Hd|].
  intro Hwhole. rewrite Hd, Hwhole. field. exact Hf0.
Qed.

Lemma zero_coupon_duration_witness :
  exists d, calculate_macaulay_duration 1000 0 10 (1 # 25) 1 = Ok d /\
            d == 10.
Proof.
  destruct (zero_coupon_duration 1000 0 10 (1 # 25) 1) as (d & Hd & _ & Hw);
    [reflexivity | discriminate | reflexivity | discriminate | reflexivity |].
  exists d. split; [exact Hd | apply Hw; reflexivity].
Defined.

(** C4 as worded fails when [years * frequency] is fractional: a year and
    a half at annual frequency has one period, and the duration is 1. *)
Lemma zero_coupon_duration_counterexample :
  (1 <= Qfloor ((3 # 2) * inject_Z 1))%Z /\
  0 < 1 + (1 # 20) / inject_Z 1 /\
  exists d, calculate_macaulay_duration 1000 0 (3 # 2) (1 # 20) 1 = Ok d /\
            d == 1 /\ ~ d == 3 # 2.
Proof.
  split; [discriminate|]. split; [reflexivity|].
  eexists. split; [vm_compute; reflexivity|].
  split; [reflexivity | discriminate].
Qed.

(** ** Cash-flow schedule (C5) *)

(** The entry the loop appends for period [i]. *)
Lemma py_int_day_offset (i f : Z) :
  (0 <= i)%Z -> (0 < f)%Z ->
  py_int (inject_Z (i * 365) / inject_Z f) = (i * 365 / f)%Z.
Proof.
  intros Hi Hf. rewrite py_int_floor.
  - symmetry. apply Zdiv_Qdiv.
  - apply Qle_shift_div_l; [now apply inject_Z_pos|].
    unfold Qle, inject_Z. simpl. lia.
Qed.

Lemma schedule_loop_ok (F C : Q) (n f : Z) (start : datetime)
    (idxs : list Z) (schedule : list (datetime * Q)) :
  (0 < f)%Z -> (MINORDINAL <= toordinal start)%Z ->
  (forall i, In i idxs ->
     (1 <= i)%Z /\ (toordinal start + i * 365 / f <= MAXORDINAL)%Z) ->
  schedule_loop F C n f start idxs schedule =
  Ok (schedule ++
      map (fun i =>
             (mk_datetime (toordinal start + i * 365 / f) (day_micros start),
              if (i =? n)%Z then C + F else C)) idxs).
Proof.
  intros Hf Hs. revert schedule.
  induction idxs as [|i idxs IH]; intros schedule Hidx.
  - cbn [schedule_loop map]. now rewrite app_nil_r.
  - destruct (Hidx i (or_introl eq_refl)) as (Hi & Hmax).
    cbn [schedule_loop].
    rewrite pydiv_ok by (apply inject_Z_nonzero; lia). cbn [bind].
    rewrite py_int_day_offset by lia.
    assert (H0 : (0 <= i * 365 / f)%Z) by (apply Z.div_pos; lia).
    unfold MINORDINAL, MAXORDINAL in *.
    unfold timedelta_days.
    destruct (Z.leb_spec (Z.abs (i * 365 / f)) 999999999); [|lia].
    cbn [bind]. unfold datetime_add_days, MINORDINAL, MAXORDINAL.
    destruct (Z.leb_spec 1 (toordinal start + i * 365 / f)); [|lia].
    destruct (Z.leb_spec (toordinal start + i * 365 / f) 3652059); [|lia].
    cbn [andb bind]. rewrite IH.
    + rewrite <- app_assoc. reflexivity.
    + intros j Hj. apply Hidx. now right.
Qed.

Lemma range1_bounds (n i : Z) : In i (range1 n) <-> (1 <= i <= n)%Z.
Proof.
  unfold range1. rewrite in_map_iff. split.
  - intros (k & <- & Hk). apply in_seq in Hk. lia.
  - intros Hi. exists (Z.to_nat i). split; [lia|]. apply in_seq. lia.
Qed.

Lemma range1_nth (n i : Z) :
  (1 <= i <= n)%Z -> nth_error (range1 n) (Z.to_nat (i - 1)) = Some i.
Proof.
  intro Hi. unfold range1. rewrite nth_error_map, nth_error_seq.
  destruct (Nat.ltb_spec (Z.to_nat (i - 1)) (Z.to_nat n)); [|lia].
  cbn [option_map]. f_equal. lia.
Qed.

(** C5, as the code has it: from an explicit start date the schedule has
    [max(n, 0)] entries for [n = int(years * frequency)]; entry [i] falls
    [int(i * 365 / frequency)] days after the start, the quotient
    truncated and not rounded, and pays the coupon [F*c/f], the last one
    the coupon plus the face value.  The dates must stay within the range
    of [datetime]: the start is a valid date and the last payment does not
    pass 9999-12-31. *)
Theorem cash_flow_schedule_entries (now : datetime) (F c Y : Q) (f : Z)
    (start : datetime) :
  (0 < f)%Z ->
  (MINORDINAL <= toordinal start)%Z ->
  let n := py_int (Y * inject_Z f) in
  (toordinal start + n * 365 / f <= MAXORDINAL)%Z ->
  exists schedule,
    generate_cash_flow_schedule now F c Y f (Some start) = Ok schedule /\
    length schedule = Z.to_nat n /\
    (0 <= Y -> n = Qfloor (Y * inject_Z f)) /\
    forall i, (1 <= i <= n)%Z ->
      py_int (inject_Z (i * 365) / inject_Z f) = (i * 365 / f)%Z /\
      nth_error schedule (Z.to_nat (i - 1)) =
      Some (mk_datetime (toordinal start + i * 365 / f) (day_micros start),
            if (i =? n)%Z then F * c / inject_Z f + F
            else F * c / inject_Z f).
Proof.
  intros Hf Hs n Hmax. unfold generate_cash_flow_schedule. fold n.
  rewrite pydiv_ok by (apply inject_Z_nonzero; lia). cbn [bind].
  unfold pyfloordiv. destruct (Z.eqb_spec f 0); [lia|]. cbn [bind].
  rewrite schedule_loop_ok; try assumption.
  - eexists; split; [reflexivity|]. cbn [app].
    split; [|split].
    + rewrite length_map. unfold range1. now rewrite length_map, length_seq.
    + intro HY. apply py_int_floor.
      pose proof (inject_Z_pos f Hf). nra.
    + intros i Hi. split; [apply py_int_day_offset; lia|].
      rewrite nth_error_map, (range1_nth n i Hi). reflexivity.
  - intros i Hi. apply range1_bounds in Hi. split; [lia|].
    assert ((i * 365 / f <= n * 365 / f)%Z)
      by (apply Z.div_le_mono; lia).
    lia.
Qed.

Lemma cash_flow_schedule_entries_witness :
  exists schedule,
    generate_cash_flow_schedule (mk_datetime 1 0) 1000 (1 # 20) 1 4
      (Some (mk_datetime 738000 0)) = Ok schedule /\
    length schedule = 4%nat /\
    nth_error schedule 2 =
    Some (mk_datetime (738000 + 273) 0, 1000 * (1 # 20) / inject_Z 4).
Proof.
  destruct (cash_flow_schedule_entries (mk_datetime 1 0) 1000 (1 # 20) 1 4
              (mk_datetime 738000 0))
    as (s & Hs & Hlen & _ & Hent);
    [reflexivity | discriminate | discriminate |].
  exists s. split; [exact Hs | split; [exact Hlen|]].
  destruct (Hent 3%Z) as (_ & H); [split; discriminate|]. exact H.
Defined.

(** C5 as worded fails on the payment day: with quarterly payments the
    third one falls [int(273.75) = 273] days after the start, where
    rounding gives 274. *)
Lemma cash_flow_schedule_round_counterexample :
  exists schedule,
    generate_cash_flow_schedule (mk_datetime 1 0) 1000 (1 # 20) 1 4
      (Some (mk_datetime 738000 0)) = Ok schedule /\
    nth_error schedule 2 =
    Some (mk_datetime (738000 + 273) 0, 1000 * (1 # 20) / inject_Z 4) /\
    spec_round (inject_Z (3 * 365) / inject_Z 4) = 274%Z.
Proof.
  eexists. split; [vm_compute; reflexivity|].
  split; reflexivity.
Qed.

(** ** The solver on brackets of the yield (C3) *)

(** For positive yields the price at a point of a bracket lies between the
    prices at its ends. *)
Lemma price_between (F c Y : Q) (f : Z) (lo y hi plo phi : Q) :
  valid_bond_terms F c Y f ->
  0 < lo -> lo < y -> y < hi ->
  calculate_bond_price F c Y lo f = Ok plo ->
  calculate_bond_price F c Y hi f = Ok phi ->
  exists p, calculate_bond_price F c Y y f = Ok p /\ phi <= p /\ p <= plo.
Proof.
  intros Hv Hlo Hly Hyh Hplo Hphi.
  assert (Hf : (0 < f)%Z) by (destruct Hv as (_ & _ & _ & Hf & _); exact Hf).
  pose proof (inject_Z_pos f Hf) as Hfp.
  assert (Hbase : forall z, 0 < z -> 0 < 1 + z / inject_Z f).
  { intros z Hz.
    assert (0 < z / inject_Z f) by (apply Qlt_shift_div_l; [exact Hfp | lra]).
    lra. }
  destruct (price_antitone_off_zero F c Y f lo y Hv Hly (Hbase lo Hlo))
    as (p1 & p & H1 & Hp & Hle1); [lra | lra |].
  destruct (price_antitone_off_zero F c Y f y hi Hv Hyh (Hbase y ltac:(lra)))
    as (p' & p2 & Hp' & H2 & Hle2); [lra | lra |].
  exists p. split; [exact Hp|].
  assert (p1 = plo) by congruence. assert (p2 = phi) by congruence.
  assert (p' = p) by congruence. subst. split; assumption.
Qed.

(** One pass of the loop from anywhere in a bracket [(lo, hi)] of positive
    yields on which the price stays at least the tolerance above the
    target: the pass neither returns nor breaks, and the update lands in
    the bracket computed from the prices at the ends. *)
Lemma newton_pass_bracket (T F c Y : Q) (f : Z) (tol : Q)
    (y lo hi plo phi plo_up phi_up lo' hi' : Q) :
  valid_bond_terms F c Y f ->
  0 <= tol -> 0 < lo -> lo < y -> y < hi ->
  calculate_bond_price F c Y lo f = Ok plo ->
  calculate_bond_price F c Y hi f = Ok phi ->
  calculate_bond_price F c Y (lo + delta) f = Ok plo_up ->
  calculate_bond_price F c Y (hi + delta) f = Ok phi_up ->
  tol <= phi - T ->
  plo_up < phi ->
  lo' <= lo + (phi - T) * delta / (plo - phi_up) ->
  hi + (plo - T) * delta / (phi - plo_up) <= hi' ->
  exists y', newton_step T F c Y f tol y y' /\ lo' < y' /\ y' < hi'.
Proof.
  intros Hv Htol Hlo Hly Hyh Hplo Hphi Hplou Hphiu Hres Hneg Hlo' Hhi'.
  destruct (price_between F c Y f lo y hi plo phi Hv Hlo Hly Hyh Hplo Hphi)
    as (p & Hp & Hp1 & Hp2).
  assert (Hd : 0 < delta) by reflexivity.
  destruct (price_between F c Y f (lo + delta) (y + delta) (hi + delta)
              plo_up phi_up Hv ltac:(lra) ltac:(lra) ltac:(lra) Hplou Hphiu)
    as (u & Hu & Hu1 & Hu2).
  assert (Ha : 0 < p - u) by lra.
  assert (Hderiv : (u - p) / delta < 0).
  { apply Qlt_shift_div_r; [exact Hd | lra]. }
  exists (y - (p - T) / ((u - p) / delta)).
  split.
  - apply (newton_step_intro T F c Y f tol y _ p u); try assumption.
    + pose proof (Qle_Qabs (p - T)). lra.
    + lra.
    + reflexivity.
  - assert (Hstep : (p - T) / ((u - p) / delta) == - ((p - T) * delta / (p - u))).
    { field. split; lra. }
    rewrite Hstep.
    assert (Hlow : (phi - T) * delta / (plo - phi_up)
                   <= (p - T) * delta / (p - u)).
    { apply Qle_shift_div_l; [lra|].
      assert (Hq : 0 <= (phi - T) * delta / (plo - phi_up)).
      { apply Qle_shift_div_l; [lra | nra]. }
      assert (Hm : (phi - T) * delta / (plo - phi_up) * (plo - phi_up)
                   == (phi - T) * delta) by (field; lra).
      nra. }
    assert (Hupp : (p - T) * delta / (p - u)
                   <= (plo - T) * delta / (phi - plo_up)).
    { apply Qle_shift_div_r; [lra|].
      assert (Hq : 0 <= (plo - T) * delta / (phi - plo_up)).
      { apply Qle_shift_div_l; [lra | nra]. }
      assert (Hm : (plo - T) * delta / (phi - plo_up) * (phi - plo_up)
                   == (plo - T) * delta) by (field; lra).
      nra. }
    split; lra.
Qed.

(** A bracket on whose ends the price is within the tolerance of the
    target: the pass at any of its points returns at the tolerance test. *)
Lemma converged_bracket (T F c Y : Q) (f : Z) (tol : Q)
    (y lo hi plo phi : Q) :
  valid_bond_terms F c Y f ->
  0 < lo -> lo < y -> y < hi ->
  calculate_bond_price F c Y lo f = Ok plo ->
  calculate_bond_price F c Y hi f = Ok phi ->
  plo - T < tol -> - tol < phi - T ->
  converged_at T F c Y f tol y.
Proof.
  intros Hv Hlo Hly Hyh Hplo Hphi H1 H2.
  destruct (price_between F c Y f lo y hi plo phi Hv Hlo Hly Hyh Hplo Hphi)
    as (p & Hp & Hp1 & Hp2).
  exists p. split; [exact Hp|].
  apply Qabs_Qlt_condition. split; lra.
Qed.

(** The scenario of the specification: price 950 for a face value of 1000,
    a 5% coupon, five years, semi-annual payments. *)
Lemma scenario_terms_valid : valid_bond_terms 1000 (1 # 20) 5 2.
Proof. repeat split; try reflexivity; discriminate. Qed.

(** The first pass, computed exactly: from the coupon rate to a yield
    near 6.1429%. *)
Lemma scenario_first_pass :
  exists y1,
    newton_step 950 1000 (1 # 20) 5 2 default_tolerance (1 # 20) y1 /\
    (7678603571 # 125000000000) < y1 /\ y1 < (61428828569 # 1000000000000).
Proof.
  eexists. split.
  - eapply newton_step_intro.
    + vm_compute; reflexivity.
    + vm_compute; discriminate.
    + vm_compute; reflexivity.
    + vm_compute; discriminate.
    + reflexivity.
  - split; vm_compute; reflexivity.
Qed.

Ltac bracket_pass Hv Hlo Hhi :=
  eapply newton_pass_bracket;
  [ exact Hv | discriminate | | exact Hlo | exact Hhi
  | vm_compute; reflexivity | vm_compute; reflexivity
  | vm_compute; reflexivity | vm_compute; reflexivity
  | vm_compute; discriminate | vm_compute; reflexivity
  | | ];
  [ reflexivity | | ].

Lemma scenario_second_pass (y1 : Q) :
  (7678603571 # 125000000000) < y1 -> y1 < (61428828569 # 1000000000000) ->
  exists y2,
    newton_step 950 1000 (1 # 20) 5 2 default_tolerance y1 y2 /\
    (617760259 # 10000000000) < y2 /\ y2 < (193050081 # 3125000000).
Proof.
  intros Hlo Hhi.
  bracket_pass scenario_terms_valid Hlo Hhi; vm_compute; discriminate.
Qed.

Lemma scenario_third_pass (y2 : Q) :
  (617760259 # 10000000000) < y2 -> y2 < (193050081 # 3125000000) ->
  exists y3,
    newton_step 950 1000 (1 # 20) 5 2 default_tolerance y2 y3 /\
    (19305077 # 312500000) < y3 /\ y3 < (123552493 # 2000000000).
Proof.
  intros Hlo Hhi.
  bracket_pass scenario_terms_valid Hlo Hhi; vm_compute; discriminate.
Qed.

Lemma scenario_fourth_pass (y3 : Q) :
  (19305077 # 312500000) < y3 -> y3 < (123552493 # 2000000000) ->
  converged_at 950 1000 (1 # 20) 5 2 default_tolerance y3.
Proof.
  intros Hlo Hhi.
  eapply converged_bracket;
    [ exact scenario_terms_valid | | exact Hlo | exact Hhi
    | vm_compute; reflexivity | vm_compute; reflexivity
    | vm_compute; reflexivity | vm_compute; reflexivity ].
  reflexivity.
Qed.

(** ** A diverging run (C3 as worded)

    One period, a 150% coupon and a target priced at a 1% yield: the first
    update overshoots the pole and the iterates then run away below -2. *)
Lemma one_period_price (y : Q) :
  ~ y == 0 -> ~ 1 + y == 0 ->
  exists p, calculate_bond_price 1000 (3 # 2) 1 y 1 = Ok p /\
            p == 2500 / (1 + y).
Proof.
  intros Hy Hx.
  assert (Hx' : ~ 1 + y / inject_Z 1 == 0).
  { intro H. apply Hx. rewrite <- H. field. }
  rewrite (price_general 1000 (3 # 2) 1 y 1 eq_refl Hy (or_introl Hx')).
  eexists; split; [reflexivity|].
  change (py_int (1 * inject_Z 1)) with 1%Z.
  change (inject_Z 1) with 1.
  change ((1 + y / 1) ^ (- (1))) with (/ (1 + y / 1)).
  change ((1 + y / 1) ^ 1) with (1 + y / 1).
  field. repeat split; assumption.
Qed.

Lemma Qinv_neg (x : Q) : x < 0 -> / x < 0 /\ x * / x == 1.
Proof.
  intro Hx. split; [|field; lra].
  assert (H : 0 < / (- x)) by (apply Qinv_lt_0_compat; lra).
  assert (Heq : / (- x) == - / x) by (field; lra).
  lra.
Qed.

Lemma diverging_pass (T ytm : Q) :
  T == 250000 # 101 -> ytm <= - (2) ->
  exists ytm',
    newton_step T 1000 (3 # 2) 1 1 default_tolerance ytm ytm' /\
    ytm' <= - (2).
Proof.
  intros HT Hy.
  assert (Hd : delta == 1 # 10000) by reflexivity.
  assert (Htol : default_tolerance == 1 # 10000) by reflexivity.
  destruct (one_period_price ytm ltac:(lra) ltac:(lra)) as (p & Hp & Hpv).
  destruct (one_period_price (ytm + delta) ltac:(lra) ltac:(lra))
    as (u & Hu & Huv).
  destruct (Qinv_neg (1 + ytm) ltac:(lra)) as (Hix & Hxi).
  destruct (Qinv_neg (1 + (ytm + delta)) ltac:(lra)) as (Hixd & Hxid).
  unfold Qdiv in Hpv, Huv.
  set (ix := / (1 + ytm)) in *. set (ixd := / (1 + (ytm + delta))) in *.
  assert (Hprod : 0 < ix * ixd) by nra.
  assert (Hup : u < p).
  { assert (ixd - ix == - delta * (ix * ixd)) by nra. nra. }
  assert (Hres : p - T < 0) by nra.
  assert (Hderiv : (u - p) / delta < 0).
  { apply Qlt_shift_div_r; lra. }
  exists (ytm - (p - T) / ((u - p) / delta)). split.
  - apply (newton_step_intro T 1000 (3 # 2) 1 1 default_tolerance ytm _ p u);
      try assumption.
    + rewrite Qabs_neg by lra. lra.
    + lra.
    + reflexivity.
  - assert (Hstep : (p - T) / ((u - p) / delta)
                    == (T - p) / (- ((u - p) / delta))) by (field; lra).
    assert (0 <= (T - p) / (- ((u - p) / delta)))
      by (apply Qle_shift_div_l; lra).
    lra.
Qed.

Lemma diverging_run (T : Q) (k : nat) (ytm : Q) :
  T == 250000 # 101 -> ytm <= - (2) ->
  exists r,
    newton_run T 1000 (3 # 2) 1 1 default_tolerance k ytm r /\ r <= - (2).
Proof.
  intro HT. revert ytm. induction k as [|k IH]; intros ytm Hy.
  - exists ytm. split; [apply newton_run_done | exact Hy].
  - destruct (diverging_pass T ytm HT Hy) as (y' & Hstep & Hy').
    destruct (IH y' Hy') as (r & Hrun & Hr).
    exists r. split; [|exact Hr].
    eapply newton_run_step; eassumption.
Qed.


(** ** The round trip near par (C3)

    Written in the discount factors [v = 1/(1 + ytm/f)], the price is a
    polynomial, and the difference of two prices is the difference of the
    discount factors times a slope ([dcf_slope]).  The finite-difference
    Newton update then multiplies the error of the discount base by
    [1 - rho * G1 / G2], where [rho] is the ratio of the shifted base to
    the target's and [G1], [G2] are the slopes to the target and to the
    shifted iterate.  While the error and the shift [delta/f] stay below
    [1/(8 n)], Bernoulli's inequality keeps both ratios within [7/8] and
    [8/7], so the error at least halves at every pass. *)

Lemma pow_quotient_spec (u w : Q) (t : nat) :
  u ^ Z.of_nat t - w ^ Z.of_nat t == (u - w) * pow_quotient u w t.
Proof.
  induction t as [|t IH]; [simpl; ring|].
  rewrite !Qpow_succ. cbn [pow_quotient].
  setoid_replace (u * u ^ Z.of_nat t - w * w ^ Z.of_nat t)
    with ((u - w) * u ^ Z.of_nat t + w * (u ^ Z.of_nat t - w ^ Z.of_nat t))
    by ring.
  rewrite IH. ring.
Qed.

Lemma annuity_slope_spec (u w : Q) (n : nat) :
  annuity u n - annuity w n == (u - w) * annuity_slope u w n.
Proof.
  induction n as [|n IH]; [simpl; ring|].
  cbn [annuity annuity_slope].
  setoid_replace (u * (1 + annuity u n) - w * (1 + annuity w n))
    with ((u - w) * (1 + annuity u n) + w * (annuity u n - annuity w n))
    by ring.
  rewrite IH. ring.
Qed.

Lemma dcf_slope_spec (C F u w : Q) (n : nat) :
  dcf_price C F u n - dcf_price C F w n == (u - w) * dcf_slope C F u w n.
Proof.
  unfold dcf_price, dcf_slope.
  setoid_replace (C * annuity u n + F * u ^ Z.of_nat n
                  - (C * annuity w n + F * w ^ Z.of_nat n))
    with (C * (annuity u n - annuity w n)
          + F * (u ^ Z.of_nat n - w ^ Z.of_nat n)) by ring.
  rewrite annuity_slope_spec, pow_quotient_spec. ring.
Qed.

Lemma pow_quotient_eq (u w w' : Q) (t : nat) :
  w == w' -> pow_quotient u w t == pow_quotient u w' t.
Proof.
  intro H. induction t as [|t IH]; [reflexivity|].
  cbn [pow_quotient]. rewrite IH, H. reflexivity.
Qed.

Lemma annuity_slope_eq (u w w' : Q) (n : nat) :
  w == w' -> annuity_slope u w n == annuity_slope u w' n.
Proof.
  intro H. induction n as [|n IH]; [reflexivity|].
  cbn [annuity_slope]. rewrite IH, H. reflexivity.
Qed.

Lemma dcf_slope_eq (C F u w w' : Q) (n : nat) :
  w == w' -> dcf_slope C F u w n == dcf_slope C F u w' n.
Proof.
  intro H. unfold dcf_slope.
  rewrite (annuity_slope_eq u w w' n H), (pow_quotient_eq u w w' n H).
  reflexivity.
Qed.

Lemma pow_quotient_nonneg (u w : Q) (t : nat) :
  0 <= u -> 0 <= w -> 0 <= pow_quotient u w t.
Proof.
  intros Hu Hw. induction t as [|t IH]; cbn [pow_quotient]; [lra|].
  pose proof (Qpow_nat_nonneg u t Hu). nra.
Qed.

Lemma annuity_slope_nonneg (u w : Q) (n : nat) :
  0 <= u -> 0 <= w -> 0 <= annuity_slope u w n.
Proof.
  intros Hu Hw. induction n as [|n IH]; cbn [annuity_slope]; [lra|].
  pose proof (annuity_nonneg u n Hu). nra.
Qed.

Lemma pow_quotient_lower (u w : Q) (k : nat) :
  0 <= u -> 0 <= w -> w ^ Z.of_nat k <= pow_quotient u w (S k).
Proof.
  intros Hu Hw. induction k as [|k IH].
  - simpl. lra.
  - rewrite Qpow_succ.
    change (pow_quotient u w (S (S k)))
      with (u ^ Z.of_nat (S k) + w * pow_quotient u w (S k)).
    pose proof (Qpow_nat_nonneg u (S k) Hu). nra.
Qed.

Lemma dcf_slope_lower (C F u w : Q) (k : nat) :
  0 <= C -> 0 <= F -> 0 <= u -> 0 <= w ->
  F * w ^ Z.of_nat k <= dcf_slope C F u w (S k).
Proof.
  intros HC HF Hu Hw. unfold dcf_slope.
  pose proof (annuity_slope_nonneg u w (S k) Hu Hw).
  pose proof (pow_quotient_lower u w k Hu Hw). nra.
Qed.

Lemma pow_quotient_mono (u w w' : Q) (t : nat) :
  0 <= u -> 0 <= w -> w <= w' ->
  pow_quotient u w t <= pow_quotient u w' t.
Proof.
  intros Hu Hw Hww. induction t as [|t IH]; cbn [pow_quotient]; [lra|].
  pose proof (pow_quotient_nonneg u w t Hu Hw). nra.
Qed.

Lemma annuity_slope_mono (u w w' : Q) (n : nat) :
  0 <= u -> 0 <= w -> w <= w' ->
  annuity_slope u w n <= annuity_slope u w' n.
Proof.
  intros Hu Hw Hww. induction n as [|n IH]; cbn [annuity_slope]; [lra|].
  pose proof (annuity_slope_nonneg u w n Hu Hw). nra.
Qed.

Lemma dcf_slope_mono (C F u w w' : Q) (n : nat) :
  0 <= C -> 0 <= F -> 0 <= u -> 0 <= w -> w <= w' ->
  dcf_slope C F u w n <= dcf_slope C F u w' n.
Proof.
  intros HC HF Hu Hw Hww. unfold dcf_slope.
  pose proof (annuity_slope_mono u w w' n Hu Hw Hww).
  pose proof (pow_quotient_mono u w w' n Hu Hw Hww). nra.
Qed.

Ltac qnonneg := repeat apply Qmult_le_0_compat; try lra.

Lemma inject_nat_succ (k : nat) :
  inject_Z (Z.of_nat (S k)) == inject_Z (Z.of_nat k) + 1.
Proof.
  rewrite Nat2Z.inj_succ. unfold Z.succ. rewrite inject_Z_plus. reflexivity.
Qed.

Lemma inject_nat_nonneg (k : nat) : 0 <= inject_Z (Z.of_nat k).
Proof.
  change 0 with (inject_Z 0). rewrite <- Zle_Qle. lia.
Qed.

(** Shrinking the second discount factor by [1 - s] shrinks the slope by
    at most [1 - t s]. *)
Lemma pow_quotient_scale (u w s : Q) (t : nat) :
  0 <= u -> 0 <= w -> 0 <= s -> s <= 1 ->
  (1 - inject_Z (Z.of_nat t) * s) * pow_quotient u w t
  <= pow_quotient u ((1 - s) * w) t.
Proof.
  intros Hu Hw Hs Hs1. induction t as [|t IH]; [simpl; lra|].
  cbn [pow_quotient]. rewrite inject_nat_succ.
  pose proof (inject_nat_nonneg t) as Ht.
  pose proof (Qpow_nat_nonneg u t Hu) as Hp.
  pose proof (pow_quotient_nonneg u w t Hu Hw) as Hq.
  set (k := inject_Z (Z.of_nat t)) in *.
  set (p := u ^ Z.of_nat t) in *.
  set (q := pow_quotient u w t) in *.
  set (q' := pow_quotient u ((1 - s) * w) t) in *.
  assert (H1 : (1 - s) * w * ((1 - k * s) * q) <= (1 - s) * w * q').
  { assert (Hc : 0 <= (1 - s) * w) by qnonneg.
    rewrite !(Qmult_comm ((1 - s) * w)).
    apply Qmult_le_compat_r; assumption. }
  assert (H2 : 0 <= (k + 1) * s * p) by qnonneg.
  assert (H3 : 0 <= w * q * (k * (s * s))).
  { qnonneg. }
  nra.
Qed.

Lemma annuity_slope_scale (u w s : Q) (n : nat) :
  0 <= u -> 0 <= w -> 0 <= s -> s <= 1 ->
  (1 - inject_Z (Z.of_nat n) * s) * annuity_slope u w n
  <= annuity_slope u ((1 - s) * w) n.
Proof.
  intros Hu Hw Hs Hs1. induction n as [|n IH]; [simpl; lra|].
  cbn [annuity_slope]. rewrite inject_nat_succ.
  pose proof (inject_nat_nonneg n) as Hn.
  pose proof (annuity_nonneg u n Hu) as Hp.
  pose proof (annuity_slope_nonneg u w n Hu Hw) as Hq.
  set (k := inject_Z (Z.of_nat n)) in *.
  set (p := annuity u n) in *.
  set (q := annuity_slope u w n) in *.
  set (q' := annuity_slope u ((1 - s) * w) n) in *.
  assert (H1 : (1 - s) * w * ((1 - k * s) * q) <= (1 - s) * w * q').
  { assert (Hc : 0 <= (1 - s) * w) by qnonneg.
    rewrite !(Qmult_comm ((1 - s) * w)).
    apply Qmult_le_compat_r; assumption. }
  assert (H2 : 0 <= (k + 1) * s * (1 + p)) by qnonneg.
  assert (H3 : 0 <= w * q * (k * (s * s))).
  { qnonneg. }
  nra.
Qed.

Lemma dcf_slope_scale (C F u w s : Q) (n : nat) :
  0 <= C -> 0 <= F -> 0 <= u -> 0 <= w -> 0 <= s -> s <= 1 ->
  (1 - inject_Z (Z.of_nat n) * s) * dcf_slope C F u w n
  <= dcf_slope C F u ((1 - s) * w) n.
Proof.
  intros HC HF Hu Hw Hs Hs1. unfold dcf_slope.
  pose proof (annuity_slope_scale u w s n Hu Hw Hs Hs1).
  pose proof (pow_quotient_scale u w s n Hu Hw Hs Hs1).
  nra.
Qed.

(** Bernoulli's inequality. *)
Lemma Qpow_bernoulli (s : Q) (n : nat) :
  0 <= s -> s <= 1 -> 1 - inject_Z (Z.of_nat n) * s <= (1 - s) ^ Z.of_nat n.
Proof.
  intros Hs Hs1.
  induction n as [|n IH]; [simpl; change (inject_Z 0) with 0; lra|].
  rewrite Qpow_succ, inject_nat_succ.
  pose proof (inject_nat_nonneg n) as Hn.
  pose proof (Qpow_nat_nonneg (1 - s) n ltac:(lra)) as Hp.
  set (k := inject_Z (Z.of_nat n)) in *.
  set (p := (1 - s) ^ Z.of_nat n) in *.
  assert (H1 : (1 - s) * (1 - k * s) <= (1 - s) * p).
  { rewrite !(Qmult_comm (1 - s)). apply Qmult_le_compat_r; lra. }
  assert (H2 : 0 <= k * (s * s)) by qnonneg.
  nra.
Qed.

(** Upper bounds of the slopes under a common bound [m >= 1] of the two
    discount factors. *)
Lemma annuity_upper (u m : Q) (n : nat) :
  0 <= u -> u <= m -> 1 <= m ->
  annuity u n <= inject_Z (Z.of_nat n) * m ^ Z.of_nat n.
Proof.
  intros Hu Hum Hm. induction n as [|n IH]; [simpl; change (inject_Z 0) with 0; lra|].
  cbn [annuity]. rewrite Qpow_succ, inject_nat_succ.
  pose proof (inject_nat_nonneg n) as Hn.
  pose proof (annuity_nonneg u n Hu) as Ha.
  assert (Hp : 1 <= m ^ Z.of_nat n).
  { pose proof (Qpow_nat_mono 1 m n ltac:(lra) Hm) as H.
    rewrite Qpower_1 in H. exact H. }
  set (k := inject_Z (Z.of_nat n)) in *.
  set (p := m ^ Z.of_nat n) in *.
  set (A := annuity u n) in *.
  assert (H1 : u * (1 + A) <= m * (1 + k * p)).
  { apply Qmult_le_compat_nonneg; split; lra. }
  assert (H2 : 0 <= m * (p - 1)) by qnonneg.
  nra.
Qed.

Lemma pow_quotient_upper (u w m : Q) (t : nat) :
  0 <= u -> u <= m -> 0 <= w -> w <= m -> 1 <= m ->
  pow_quotient u w t <= inject_Z (Z.of_nat t) * m ^ Z.of_nat t.
Proof.
  intros Hu Hum Hw Hwm Hm. induction t as [|t IH]; [simpl; change (inject_Z 0) with 0; lra|].
  cbn [pow_quotient]. rewrite Qpow_succ, inject_nat_succ.
  pose proof (inject_nat_nonneg t) as Hn.
  pose proof (pow_quotient_nonneg u w t Hu Hw) as Hq.
  pose proof (Qpow_nat_mono u m t Hu Hum) as Hup.
  assert (Hp : 1 <= m ^ Z.of_nat t).
  { pose proof (Qpow_nat_mono 1 m t ltac:(lra) Hm) as H.
    rewrite Qpower_1 in H. exact H. }
  set (k := inject_Z (Z.of_nat t)) in *.
  set (p := m ^ Z.of_nat t) in *.
  set (q := pow_quotient u w t) in *.
  set (pu := u ^ Z.of_nat t) in *.
  assert (H1 : w * q <= m * (k * p)).
  { apply Qmult_le_compat_nonneg; split; try lra. }
  assert (H2 : 0 <= (m - 1) * p) by qnonneg.
  nra.
Qed.

Lemma annuity_slope_upper (u w m : Q) (n : nat) :
  0 <= u -> u <= m -> 0 <= w -> w <= m -> 1 <= m ->
  annuity_slope u w n
  <= inject_Z (Z.of_nat n) * inject_Z (Z.of_nat n) * m ^ Z.of_nat n.
Proof.
  intros Hu Hum Hw Hwm Hm. induction n as [|n IH]; [simpl; change (inject_Z 0) with 0; lra|].
  cbn [annuity_slope]. rewrite Qpow_succ, inject_nat_succ.
  pose proof (inject_nat_nonneg n) as Hn.
  pose proof (annuity_slope_nonneg u w n Hu Hw) as Hq.
  pose proof (annuity_upper u m n Hu Hum Hm) as HA.
  assert (Hp : 1 <= m ^ Z.of_nat n).
  { pose proof (Qpow_nat_mono 1 m n ltac:(lra) Hm) as H.
    rewrite Qpower_1 in H. exact H. }
  set (k := inject_Z (Z.of_nat n)) in *.
  set (p := m ^ Z.of_nat n) in *.
  set (q := annuity_slope u w n) in *.
  set (A := annuity u n) in *.
  assert (H1 : w * q <= m * (k * k * p)).
  { apply Qmult_le_compat_nonneg; split; try lra. }
  assert (H2 : 0 <= (m - 1) * p) by qnonneg.
  assert (H3 : 0 <= k * ((m - 1) * p)) by qnonneg.
  assert (H4 : 0 <= k * (m * p)) by qnonneg.
  nra.
Qed.

Lemma dcf_slope_upper (C F u w m : Q) (n : nat) :
  0 <= C -> 0 <= F -> 0 <= u -> u <= m -> 0 <= w -> w <= m -> 1 <= m ->
  dcf_slope C F u w n
  <= inject_Z (Z.of_nat n) * (C * inject_Z (Z.of_nat n) + F)
     * m ^ Z.of_nat n.
Proof.
  intros HC HF Hu Hum Hw Hwm Hm. unfold dcf_slope.
  pose proof (annuity_slope_upper u w m n Hu Hum Hw Hwm Hm) as H1.
  pose proof (pow_quotient_upper u w m n Hu Hum Hw Hwm Hm) as H2.
  set (k := inject_Z (Z.of_nat n)) in *.
  set (p := m ^ Z.of_nat n) in *.
  assert (C * annuity_slope u w n <= C * (k * k * p)).
  { rewrite !(Qmult_comm C). apply Qmult_le_compat_r; assumption. }
  assert (F * pow_quotient u w n <= F * (k * p)).
  { rewrite !(Qmult_comm F). apply Qmult_le_compat_r; assumption. }
  nra.
Qed.

(** With a whole number of periods the zero-yield branch agrees with the
    discounted cash flows, so the price is their sum at every yield above
    the pole. *)
Lemma price_whole_dcf (F c Y z : Q) (f : Z) :
  valid_bond_terms F c Y f ->
  inject_Z (Qfloor (Y * inject_Z f)) == Y * inject_Z f ->
  0 < 1 + z / inject_Z f ->
  exists p,
    calculate_bond_price F c Y z f = Ok p /\
    p == dcf_price (F * c / inject_Z f) F (/ (1 + z / inject_Z f))
           (Z.to_nat (py_int (Y * inject_Z f))).
Proof.
  intros Hv Hwhole Hx.
  destruct (valid_terms_periods F c Y f Hv) as (Hnfl & Hn1 & _ & _).
  assert (Hf : (0 < f)%Z) by (destruct Hv as (_ & _ & _ & Hf & _); exact Hf).
  assert (Hf0 : ~ inject_Z f == 0) by (apply inject_Z_nonzero; lia).
  destruct (Qeq_dec z 0) as [Hz|Hz].
  - rewrite (price_zero_yield F c Y z f Hf Hz).
    eexists; split; [reflexivity|].
    assert (Hone : / (1 + z / inject_Z f) == / 1)
      by (rewrite Hz; field; exact Hf0).
    rewrite (dcf_price_eq _ _ _ _ _ Hone).
    rewrite dcf_price_undiscounted by lia.
    rewrite Hnfl, Hwhole. ring.
  - apply price_as_dcf; try assumption. lia.
Qed.

(** The error of the Newton update, relative to the yield [a - 1] whose
    price is the target, in terms of the slopes [G1] (from the iterate to
    the target) and [G2] (from the iterate to the shifted iterate). *)
Lemma newton_update_error (fq dl a x ytm calc up T G1 G2 : Q) :
  0 < fq -> 0 < dl -> 0 < a -> 0 < x -> 0 < G2 ->
  x == 1 + ytm / fq ->
  calc - T == (/ x - / a) * G1 ->
  calc - up == (/ x - / (x + dl / fq)) * G2 ->
  ~ (up - calc) / dl == 0 /\
  1 + (ytm - (calc - T) / ((up - calc) / dl)) / fq - a
  == (x - a) * (1 - (x + dl / fq) * G1 / (a * G2)).
Proof.
  intros Hfq Hdl Ha Hx HG2 Hxy H1 H2.
  assert (Hd : 0 < dl / fq) by (apply Qlt_shift_div_l; lra).
  set (d := dl / fq) in *.
  assert (Hup : up - calc == - (d * (/ x * / (x + d)) * G2)).
  { setoid_replace (up - calc) with (- (calc - up)) by ring.
    rewrite H2. field. split; lra. }
  assert (Hix : 0 < / x) by now apply Qinv_lt_0_compat.
  assert (Hixd : 0 < / (x + d)) by (apply Qinv_lt_0_compat; lra).
  assert (Hprod : 0 < d * (/ x * / (x + d)) * G2).
  { apply Qmult_lt_0_compat; [|exact HG2].
    apply Qmult_lt_0_compat; [exact Hd|].
    apply Qmult_lt_0_compat; assumption. }
  split.
  - intro H0.
    assert (up - calc == 0).
    { rewrite <- (Qmult_div_r (up - calc) dl) by lra. rewrite H0. ring. }
    lra.
  - assert (Hytm : ytm == (x - 1) * fq) by (rewrite Hxy; field; lra).
    assert (Hxf : 0 < x * fq) by (apply Qmult_lt_0_compat; assumption).
    rewrite H1, Hup, Hytm. unfold d. field.
    repeat split; lra.
Qed.

(** When the two slopes and the two discount bases are within a factor
    [7/8] of each other, on the same side, the update at least halves
    the error. *)
Lemma newton_error_halves (a x d b G1 G2 : Q) :
  1 < a -> 0 < d -> b + d <= 1 # 8 ->
  Qabs (x - a) <= b ->
  0 < G2 ->
  (x + d <= a -> G1 <= G2 /\ (7 # 8) * G2 <= G1) ->
  (a < x + d -> G2 <= G1 /\ (7 # 8) * G1 <= G2) ->
  Qabs ((x - a) * (1 - (x + d) * G1 / (a * G2))) <= (1 # 2) * b.
Proof.
  intros Ha Hd Hbd He HG2 Hlow Hhigh.
  apply Qabs_Qle_condition in He. destruct He as [He1 He2].
  assert (Hr1 : (x + d) / a * a == x + d) by (field; lra).
  assert (Hr2 : G1 / G2 * G2 == G1) by (field; lra).
  assert (Hz : (x + d) * G1 / (a * G2) == (x + d) / a * (G1 / G2))
    by (field; split; lra).
  rewrite Hz. set (r1 := (x + d) / a) in *. set (r2 := G1 / G2) in *.
  assert (Hb : (49 # 64) <= r1 * r2 /\ r1 * r2 <= 64 # 49).
  { destruct (Qlt_le_dec a (x + d)) as [Hc|Hc].
    - destruct (Hhigh Hc) as [Hg1 Hg2].
      assert (HG1 : 0 < G1) by lra.
      assert (1 <= r1) by (apply Qle_shift_div_l; lra).
      assert (r1 <= 8 # 7) by (apply Qle_shift_div_r; lra).
      assert (1 <= r2) by (apply Qle_shift_div_l; lra).
      assert (r2 <= 8 # 7) by (apply Qle_shift_div_r; lra).
      pose proof (Qmult_le_compat_nonneg 1 r1 1 r2
                    ltac:(split; lra) ltac:(split; lra)).
      pose proof (Qmult_le_compat_nonneg r1 (8 # 7) r2 (8 # 7)
                    ltac:(split; lra) ltac:(split; lra)).
      split; lra.
    - destruct (Hlow Hc) as [Hg1 Hg2].
      assert (r1 <= 1) by (apply Qle_shift_div_r; lra).
      assert ((7 # 8) <= r1) by (apply Qle_shift_div_l; lra).
      assert (r2 <= 1) by (apply Qle_shift_div_r; lra).
      assert ((7 # 8) <= r2) by (apply Qle_shift_div_l; lra).
      pose proof (Qmult_le_compat_nonneg (7 # 8) r1 (7 # 8) r2
                    ltac:(split; lra) ltac:(split; lra)).
      pose proof (Qmult_le_compat_nonneg r1 1 r2 1
                    ltac:(split; lra) ltac:(split; lra)).
      split; lra. }
  destruct Hb as [Hb1 Hb2]. set (z := r1 * r2) in *.
  clearbody z. clear Hz. apply Qabs_Qle_condition.
  assert (Hb0 : 0 <= b) by lra.
  assert (P1 : 0 <= (b - (x - a)) * ((1 # 2) + (1 - z)))
    by (apply Qmult_le_0_compat; lra).
  assert (P2 : 0 <= (b + (x - a)) * ((1 # 2) - (1 - z)))
    by (apply Qmult_le_0_compat; lra).
  assert (P3 : 0 <= (b - (x - a)) * ((1 # 2) - (1 - z)))
    by (apply Qmult_le_0_compat; lra).
  assert (P4 : 0 <= (b + (x - a)) * ((1 # 2) + (1 - z)))
    by (apply Qmult_le_0_compat; lra).
  split; lra.
Qed.

Lemma Qabs_scale (e K r : Q) :
  0 <= K -> r == e * K -> Qabs r == Qabs e * K.
Proof.
  intros HK Hr. rewrite Hr, Qabs_Qmult, (Qabs_pos K HK). reflexivity.
Qed.

(** The slope from an iterate's discount factor to the target's, over a
    window of the discount base that Bernoulli's inequality keeps narrow:
    [K], the factor between the error of the base and the residual of the
    price, is bounded on both sides. *)
Lemma slope_window (Cp F A U b : Q) (k : nat) :
  0 <= Cp -> 0 < F -> 1 < A -> Qabs (U - A) <= b ->
  inject_Z (Z.of_nat (S k)) * b <= 1 # 8 ->
  0 <= / U * / A * dcf_slope Cp F (/ U) (/ A) (S k) /\
  / U - / A == (A - U) * (/ U * / A) /\
  / U * / A * dcf_slope Cp F (/ U) (/ A) (S k)
  <= 2 * (inject_Z (Z.of_nat (S k))
          * (Cp * inject_Z (Z.of_nat (S k)) + F)) /\
  8 * F <= 9 * A ^ (Z.of_nat (S k) + 1)
           * (/ U * / A * dcf_slope Cp F (/ U) (/ A) (S k)).
Proof.
  intros HC HF HA He Hnb.
  set (nq := inject_Z (Z.of_nat (S k))) in *.
  assert (Hn : 1 <= nq).
  { unfold nq. change 1 with (inject_Z 1). rewrite <- Zle_Qle. lia. }
  pose proof (Qabs_nonneg (U - A)) as Hb0.
  apply Qabs_Qle_condition in He. destruct He as [He1 He2].
  assert (Hb : 0 <= b) by lra.
  assert (Hb8 : b <= 1 # 8).
  { assert (0 <= (nq - 1) * b) by (apply Qmult_le_0_compat; lra). lra. }
  assert (HU : (7 # 8) < U) by lra.
  assert (HiU : 0 < / U) by (apply Qinv_lt_0_compat; lra).
  assert (HiA : 0 < / A) by (apply Qinv_lt_0_compat; lra).
  assert (HiA1 : / A <= 1).
  { apply Qle_shift_inv_r; lra. }
  set (G := dcf_slope Cp F (/ U) (/ A) (S k)).
  assert (HG : F * (/ A) ^ Z.of_nat k <= G)
    by (apply dcf_slope_lower; lra).
  assert (Hq : 0 < (/ A) ^ Z.of_nat k) by now apply Qpower_0_lt.
  assert (HG0 : 0 < G).
  { assert (0 < F * (/ A) ^ Z.of_nat k)
      by (apply Qmult_lt_0_compat; assumption).
    lra. }
  assert (HUA : 0 < / U * / A) by (apply Qmult_lt_0_compat; assumption).
  split; [apply Qmult_le_0_compat; lra|].
  split; [field; split; lra|].
  split.
  - (* upper bound *)
    set (s := / (8 * nq)).
    assert (Hs : s * (8 * nq) == 1) by (unfold s; field; lra).
    assert (Hs0 : 0 < s) by (apply Qinv_lt_0_compat; lra).
    assert (Hs8 : s <= 1 # 8) by (apply Qle_shift_inv_r; lra).
    assert (Hbs : b <= s) by (apply Qle_shift_inv_l; lra).
    assert (Hns : nq * s == 1 # 8) by (unfold s; field; lra).
    set (m := / (1 - s)).
    assert (Hm1 : 1 <= m) by (apply Qle_shift_inv_l; lra).
    assert (Hm87 : m <= 8 # 7) by (apply Qle_shift_inv_r; lra).
    assert (HUm : / U <= m).
    { destruct (Qinv_antitone (1 - s) U ltac:(lra) ltac:(lra)) as (_ & H).
      exact H. }
    pose proof (dcf_slope_upper Cp F (/ U) (/ A) m (S k) HC ltac:(lra)
                  ltac:(lra) HUm ltac:(lra) ltac:(lra) Hm1) as Hup.
    fold nq in Hup. fold G in Hup.
    assert (HmN : m ^ Z.of_nat (S k) <= 8 # 7).
    { unfold m. rewrite Qinv_power.
      pose proof (Qpow_bernoulli s (S k) ltac:(lra) ltac:(lra)) as HB.
      fold nq in HB. rewrite Hns in HB.
      apply Qle_shift_inv_r; lra. }
    set (M := nq * (Cp * nq + F)) in *.
    assert (HM : 0 <= M).
    { unfold M. apply Qmult_le_0_compat; [lra|].
      assert (0 <= Cp * nq) by (apply Qmult_le_0_compat; lra). lra. }
    assert (HG87 : G <= M * (8 # 7)).
    { assert (M * m ^ Z.of_nat (S k) <= M * (8 # 7)).
      { rewrite !(Qmult_comm M). apply Qmult_le_compat_r; assumption. }
      lra. }
    assert (HUA87 : / U * / A <= (8 # 7) * 1).
    { apply Qmult_le_compat_nonneg; split; lra. }
    assert (Hfin : / U * / A * G <= (8 # 7) * 1 * (M * (8 # 7))).
    { apply Qmult_le_compat_nonneg; split; lra. }
    lra.
  - (* lower bound *)
    assert (HiU89 : (8 # 9) * / A <= / U).
    { destruct (Qinv_antitone U ((9 # 8) * A) ltac:(lra) ltac:(lra))
        as (_ & H).
      assert (Heq : / ((9 # 8) * A) == (8 # 9) * / A) by (field; lra).
      lra. }
    replace (Z.of_nat (S k) + 1)%Z with (Z.of_nat (S (S k))) by lia.
    rewrite !Qpow_succ.
    assert (HP : 0 < A ^ Z.of_nat k) by (apply Qpower_0_lt; lra).
    rewrite Qinv_power in HG, Hq.
    set (P := A ^ Z.of_nat k) in *.
    assert (HK : (8 # 9) * / A * / A * (F * / P) <= / U * / A * G).
    { apply Qmult_le_compat_nonneg; split; try lra.
      - apply Qmult_le_0_compat; [|lra].
        apply Qmult_le_0_compat; lra.
      - apply Qmult_le_compat_r; lra.
      - apply Qmult_le_0_compat; lra. }
    assert (HAAP : 0 <= 9 * (A * (A * P))).
    { apply Qmult_le_0_compat; [lra|].
      apply Qmult_le_0_compat; [lra|]. apply Qmult_le_0_compat; lra. }
    assert (Hmul : 9 * (A * (A * P)) * ((8 # 9) * / A * / A * (F * / P))
                   <= 9 * (A * (A * P)) * (/ U * / A * G)).
    { rewrite !(Qmult_comm (9 * (A * (A * P)))).
      apply Qmult_le_compat_r; assumption. }
    assert (Heq : 9 * (A * (A * P)) * ((8 # 9) * / A * / A * (F * / P))
                  == 8 * F) by (field; split; lra).
    lra.
Qed.

Section NearPar.

Variables (F c Y : Q) (f : Z) (y T : Q).
Hypothesis Hvalid : valid_bond_terms F c Y f.
Hypothesis Hwhole : inject_Z (Qfloor (Y * inject_Z f)) == Y * inject_Z f.
Hypothesis Hy : 0 < y.
Hypothesis HT : calculate_bond_price F c Y y f = Ok T.

Abbreviation periods := (Z.to_nat (py_int (Y * inject_Z f))).
Abbreviation nq := (inject_Z (Z.of_nat (Z.to_nat (py_int (Y * inject_Z f))))).
Abbreviation coupon := (F * c / inject_Z f).
Abbreviation target_base := (1 + y / inject_Z f).
Abbreviation shift := (delta / inject_Z f).
Abbreviation total_flows :=
  (F * c / inject_Z f
   * inject_Z (Z.of_nat (Z.to_nat (py_int (Y * inject_Z f)))) + F).

Lemma near_par_basics :
  0 < inject_Z f /\ 1 <= nq /\ 0 <= coupon /\ 0 < F /\
  1 < target_base /\ 0 < shift /\
  (exists k, periods = S k) /\
  T == dcf_price coupon F (/ target_base) periods.
Proof.
  destruct (valid_terms_periods F c Y f Hvalid) as (Hnfl & Hn1 & _ & HC).
  pose proof Hvalid as (HF & _ & _ & Hf & _).
  pose proof (inject_Z_pos f Hf) as Hfp.
  assert (Hyf : 0 < y / inject_Z f) by (apply Qlt_shift_div_l; lra).
  split; [exact Hfp|]. split.
  { change 1 with (inject_Z 1). rewrite <- Zle_Qle. lia. }
  split; [exact HC|]. split; [exact HF|]. split; [lra|]. split.
  { apply Qlt_shift_div_l; [exact Hfp|]. reflexivity. }
  split.
  { exists (Nat.pred periods). lia. }
  destruct (price_whole_dcf F c Y y f Hvalid Hwhole ltac:(lra))
    as (p & Hp & Hpv).
  rewrite HT in Hp. injection Hp as <-. exact Hpv.
Qed.

Section Pass.

Variables (b ytm : Q).
Hypothesis Hinv : Qabs (1 + ytm / inject_Z f - target_base) <= b.
Hypothesis Hbasin : 8 * nq * (b + shift) <= 1.

Abbreviation base := (1 + ytm / inject_Z f).
Abbreviation slope_to_target :=
  (dcf_slope coupon F (/ base) (/ target_base) periods).
Abbreviation slope_to_shift :=
  (dcf_slope coupon F (/ base) (/ (base + shift)) periods).

Lemma pass_geometry :
  0 <= b /\ b + shift <= 1 # 8 /\ nq * (b + shift) <= 1 # 8 /\
  - b <= base - target_base /\ base - target_base <= b /\
  (7 # 8) < base /\ 0 < / base /\ 0 < / target_base /\
  0 < / (base + shift).
Proof.
  destruct near_par_basics as (Hfp & Hn & HC & HF & Ha & Hd & _ & _).
  pose proof (Qabs_nonneg (base - target_base)) as Hb0.
  apply Qabs_Qle_condition in Hinv. destruct Hinv as [He1 He2].
  assert (Hb : 0 <= b) by lra.
  assert (Hnb : nq * (b + shift) <= 1 # 8) by lra.
  assert (Hbd : b + shift <= 1 # 8).
  { assert (0 <= (nq - 1) * (b + shift))
      by (apply Qmult_le_0_compat; lra).
    lra. }
  repeat split; try lra; apply Qinv_lt_0_compat; lra.
Qed.

Lemma pass_prices :
  exists calc up,
    calculate_bond_price F c Y ytm f = Ok calc /\
    calculate_bond_price F c Y (ytm + delta) f = Ok up /\
    calc - T == (/ base - / target_base) * slope_to_target /\
    calc - up == (/ base - / (base + shift)) * slope_to_shift.
Proof.
  destruct near_par_basics as (Hfp & Hn & HC & HF & Ha & Hd & _ & HTv).
  destruct pass_geometry as (Hb & Hbd & _ & He1 & He2 & Hx & _).
  assert (Hsh : 1 + (ytm + delta) / inject_Z f == base + shift)
    by (field; lra).
  destruct (price_whole_dcf F c Y ytm f Hvalid Hwhole ltac:(lra))
    as (calc & Hcalc & Hcv).
  destruct (price_whole_dcf F c Y (ytm + delta) f Hvalid Hwhole
              ltac:(rewrite Hsh; lra)) as (up & Hup & Huv).
  exists calc, up. split; [exact Hcalc|]. split; [exact Hup|].
  assert (Hinv' : / (1 + (ytm + delta) / inject_Z f) == / (base + shift))
    by (rewrite Hsh; reflexivity).
  rewrite (dcf_price_eq _ _ _ _ _ Hinv') in Huv.
  rewrite Hcv, Huv, HTv. split; apply dcf_slope_spec.
Qed.

Lemma pass_slopes :
  0 < slope_to_shift /\
  (base + shift <= target_base ->
   slope_to_target <= slope_to_shift /\
   (7 # 8) * slope_to_shift <= slope_to_target) /\
  (target_base < base + shift ->
   slope_to_shift <= slope_to_target /\
   (7 # 8) * slope_to_target <= slope_to_shift).
Proof.
  destruct near_par_basics as (Hfp & Hn & HC & HF & Ha & Hd & (k & Hk) & _).
  destruct pass_geometry
    as (Hb & Hbd & Hnb & He1 & He2 & Hx & Hiu & Hia & His).
  assert (Hpos : forall w, 0 < w -> 0 < dcf_slope coupon F (/ base) w periods).
  { intros w Hw. rewrite Hk.
    pose proof (dcf_slope_lower coupon F (/ base) w k HC ltac:(lra)
                  ltac:(lra) ltac:(lra)) as Hl.
    pose proof (Qpower_0_lt w (Z.of_nat k) Hw) as Hwk.
    assert (0 < F * w ^ Z.of_nat k) by (apply Qmult_lt_0_compat; lra).
    lra. }
  split; [apply Hpos; exact His|].
  set (A := target_base) in *. set (X := base + shift) in *.
  assert (HX : X == base + shift) by reflexivity.
  clearbody A X. split.
  - intro Hc.
    destruct (Qinv_antitone X A ltac:(lra) Hc)
      as (_ & Hle).
    split.
    + apply dcf_slope_mono; lra.
    + set (s := (A - X) / A).
      assert (Hs0 : 0 <= s) by (apply Qle_shift_div_l; lra).
      assert (Hsa : s * A == A - X)
        by (unfold s; field; lra).
      assert (Hsb : s <= b).
      { assert (0 <= s * (A - 1))
          by (apply Qmult_le_0_compat; lra).
        lra. }
      assert (Hw : (1 - s) * / X == / A)
        by (unfold s; field; split; lra).
      pose proof (dcf_slope_scale coupon F (/ base) (/ X) s
                    periods HC ltac:(lra) ltac:(lra) ltac:(lra) Hs0
                    ltac:(lra)) as Hsc.
      rewrite (dcf_slope_eq _ _ _ _ _ _ Hw) in Hsc.
      pose proof (Hpos _ His) as HG2.
      assert (Hns : nq * s <= 1 # 8).
      { assert (nq * s <= nq * (b + shift)).
        { rewrite !(Qmult_comm nq). apply Qmult_le_compat_r; lra. }
        lra. }
      assert (0 <= ((1 # 8) - nq * s)
                   * dcf_slope coupon F (/ base) (/ X) periods)
        by (apply Qmult_le_0_compat; lra).
      lra.
  - intro Hc.
    destruct (Qinv_antitone A X ltac:(lra) ltac:(lra)) as (_ & Hle).
    split.
    + apply dcf_slope_mono; lra.
    + set (s := (X - A) / X).
      assert (Hs0 : 0 <= s) by (apply Qle_shift_div_l; lra).
      assert (Hsa : s * X == X - A)
        by (unfold s; field; lra).
      assert (Hsb : s <= b + shift).
      { assert (0 <= s * (X - 1))
          by (apply Qmult_le_0_compat; lra).
        lra. }
      assert (Hw : (1 - s) * / A == / X)
        by (unfold s; field; split; lra).
      pose proof (dcf_slope_scale coupon F (/ base) (/ A) s
                    periods HC ltac:(lra) ltac:(lra) ltac:(lra) Hs0
                    ltac:(lra)) as Hsc.
      rewrite (dcf_slope_eq _ _ _ _ _ _ Hw) in Hsc.
      pose proof (Hpos _ Hia) as HG1.
      assert (Hns : nq * s <= 1 # 8).
      { assert (nq * s <= nq * (b + shift)).
        { rewrite !(Qmult_comm nq). apply Qmult_le_compat_r; lra. }
        lra. }
      assert (0 <= ((1 # 8) - nq * s)
                   * dcf_slope coupon F (/ base) (/ A) periods)
        by (apply Qmult_le_0_compat; lra).
      lra.
Qed.


(** One pass of the loop inside the basin: the two prices are computed,
    the residual is bounded on both sides by the error of the discount
    base, the derivative is not zero, and the update at least halves the
    error. *)
Lemma near_par_pass :
  exists calc up,
    calculate_bond_price F c Y ytm f = Ok calc /\
    calculate_bond_price F c Y (ytm + delta) f = Ok up /\
    Qabs (calc - T) <= 2 * b * (nq * total_flows) /\
    Qabs (base - target_base) * (8 * F)
    <= 9 * target_base ^ (Z.of_nat periods + 1) * Qabs (calc - T) /\
    ~ (up - calc) / delta == 0 /\
    Qabs (1 + (ytm - (calc - T) / ((up - calc) / delta)) / inject_Z f
          - target_base) <= (1 # 2) * b.
Proof.
  destruct pass_prices as (calc & up & Hc & Hu & H1 & H2).
  destruct near_par_basics as (Hfp & Hn & HC & HF & Ha & Hd & (k & Hk) & _).
  destruct pass_geometry
    as (Hb & Hbd & Hnb & He1 & He2 & Hx & Hiu & Hia & His).
  destruct pass_slopes as (HG2 & Hlow & Hhigh).
  exists calc, up. split; [exact Hc|]. split; [exact Hu|].
  assert (Hres : Qabs (calc - T) <= 2 * b * (nq * total_flows) /\
                 Qabs (base - target_base) * (8 * F)
                 <= 9 * target_base ^ (Z.of_nat periods + 1)
                    * Qabs (calc - T)).
  { assert (Hnb' : inject_Z (Z.of_nat (S k)) * b <= 1 # 8).
    { rewrite <- Hk.
      assert (0 <= nq * shift) by (apply Qmult_le_0_compat; lra). lra. }
    destruct (slope_window coupon F target_base base b k HC HF Ha Hinv Hnb')
      as (HK0 & Hdiff & HKup & HKlo).
    rewrite <- Hk in HK0, HKup, HKlo.
    set (K := / base * / target_base * slope_to_target) in *.
    assert (HcT : calc - T == (target_base - base) * K).
    { rewrite H1, Hdiff. unfold K. ring. }
    pose proof (Qabs_scale _ _ _ HK0 HcT) as Habs.
    rewrite (Qabs_Qminus target_base base) in Habs.
    pose proof (Qabs_nonneg (base - target_base)) as He0.
    rewrite Habs. set (E := Qabs (base - target_base)) in *.
    set (M := nq * total_flows) in *.
    set (P := target_base ^ (Z.of_nat periods + 1)) in *.
    split.
    - assert (E * K <= b * (2 * M))
        by (apply Qmult_le_compat_nonneg; split; lra).
      lra.
    - assert (E * (8 * F) <= E * (9 * P * K)).
      { rewrite !(Qmult_comm E). apply Qmult_le_compat_r; lra. }
      lra. }
  destruct Hres as [Hr1 Hr2]. split; [exact Hr1|]. split; [exact Hr2|].
  destruct (newton_update_error (inject_Z f) delta target_base base ytm
              calc up T slope_to_target slope_to_shift Hfp
              ltac:(reflexivity) ltac:(lra) ltac:(lra) HG2
              ltac:(reflexivity) H1 H2) as (HD & Hid).
  split; [exact HD|].
  rewrite Hid.
  apply newton_error_halves; try assumption.
Qed.

End Pass.

(** Inside the basin the loop meets the tolerance within [m] updates as
    soon as the bound of the residual, halved [m] times, is below it. *)
Lemma near_par_run (tol : Q) (m : nat) :
  forall b ytm : Q,
    Qabs (1 + ytm / inject_Z f - target_base) <= b ->
    8 * nq * (b + shift) <= 1 ->
    2 * b * (nq * total_flows) < tol * 2 ^ Z.of_nat m ->
    exists (j : nat) (r : Q),
      (j <= m)%nat /\
      newton_run T F c Y f tol j ytm r /\
      converged_at T F c Y f tol r /\
      Qabs (1 + r / inject_Z f - target_base) <= b.
Proof.
  destruct near_par_basics as (Hfp & Hn & HC & HF & Ha & Hd & _ & _).
  induction m as [|m IH]; intros b ytm Hinv Hbasin Hm.
  - destruct (near_par_pass b ytm Hinv Hbasin)
      as (calc & up & Hc & _ & Hres & _).
    exists 0%nat, ytm. split; [lia|]. split; [apply newton_run_done|].
    split; [|exact Hinv].
    exists calc. split; [exact Hc|]. simpl in Hm. lra.
  - destruct (near_par_pass b ytm Hinv Hbasin)
      as (calc & up & Hc & Hu & Hres & _ & HD & Hnext).
    destruct (Qlt_le_dec (Qabs (calc - T)) tol) as [Hconv|Hnot].
    + exists 0%nat, ytm. split; [lia|]. split; [apply newton_run_done|].
      split; [|exact Hinv]. exists calc. split; assumption.
    + pose proof (Qabs_nonneg (1 + ytm / inject_Z f - target_base)) as H0.
      assert (Hb : 0 <= b) by lra.
      rewrite Qpow_succ in Hm.
      destruct (IH ((1 # 2) * b) _ Hnext) as (j & r & Hj & Hrun & Hcv & Hr).
      * assert (0 <= nq * b) by (apply Qmult_le_0_compat; lra). lra.
      * lra.
      * exists (S j), r. split; [lia|]. split.
        { eapply newton_run_step; [|exact Hrun].
          apply (newton_step_intro T F c Y f tol ytm _ calc up);
            try assumption. reflexivity. }
        split; [exact Hcv | lra].
Qed.

(** The round trip inside the basin, with the solver's defaults. *)
Lemma near_par_round_trip :
  8 * nq * (Qabs (c - y) + delta) <= inject_Z f ->
  total_flows <= 1000000 ->
  exists (r : Q) (j : nat),
    calculate_yield_to_maturity T F c Y f
      default_tolerance default_max_iterations = Ok r /\
    (j <= 32)%nat /\
    newton_run T F c Y f default_tolerance j c r /\
    converged_at T F c Y f default_tolerance r /\
    Qabs (r - y) <= Qabs (c - y) /\
    Qabs (r - y) * (8 * F)
    < 9 * inject_Z f * default_tolerance
      * target_base ^ (Z.of_nat periods + 1).
Proof.
  intros Hnear Hflows.
  destruct near_par_basics as (Hfp & Hn & HC & HF & Ha & Hd & _ & _).
  assert (Hscale : forall z,
             Qabs (1 + z / inject_Z f - target_base)
             == Qabs (z - y) * / inject_Z f).
  { intro z. apply Qabs_scale.
    - apply Qlt_le_weak, Qinv_lt_0_compat, Hfp.
    - field. lra. }
  pose proof (Qabs_nonneg (c - y)) as Hcy.
  set (b := Qabs (c - y) * / inject_Z f).
  assert (Hif : 0 < / inject_Z f) by (apply Qinv_lt_0_compat, Hfp).
  assert (Hb : 0 <= b) by (apply Qmult_le_0_compat; lra).
  assert (Hbasin : 8 * nq * (b + shift) <= 1).
  { assert (Heq : 8 * nq * (b + shift)
                  == 8 * nq * (Qabs (c - y) + delta) / inject_Z f)
      by (unfold b; field; lra).
    rewrite Heq. apply Qle_shift_div_r; lra. }
  assert (Hinv : Qabs (1 + c / inject_Z f - target_base) <= b)
    by (rewrite Hscale; unfold b; lra).
  assert (Hnum : (1 # 4) * 1000000 < default_tolerance * 2 ^ Z.of_nat 32)
    by (vm_compute; reflexivity).
  set (room := 2 ^ Z.of_nat 32) in *.
  assert (Hm : 2 * b * (nq * total_flows) < default_tolerance * room).
  { assert (Hnb : nq * b <= 1 # 8).
    { assert (0 <= nq * shift) by (apply Qmult_le_0_compat; lra). lra. }
    assert (Htf : 0 <= total_flows).
    { assert (0 <= coupon * nq) by (apply Qmult_le_0_compat; lra). lra. }
    assert (nq * b * total_flows <= (1 # 8) * 1000000).
    { apply Qmult_le_compat_nonneg; split; try lra.
      apply Qmult_le_0_compat; lra. }
    lra. }
  destruct (near_par_run default_tolerance 32 b c Hinv Hbasin Hm)
    as (j & r & Hj & Hrun & Hconv & Hr).
  exists r, j. split.
  { apply (solver_returns_converged T F c Y f default_tolerance 100 j r);
      [lia | exact Hrun | exact Hconv]. }
  split; [lia|]. split; [exact Hrun|]. split; [exact Hconv|].
  rewrite Hscale in Hr. unfold b in Hr.
  split.
  - apply (Qmult_le_r _ _ (/ inject_Z f)); assumption.
  - assert (Hr' : Qabs (1 + r / inject_Z f - target_base) <= b)
      by (rewrite Hscale; exact Hr).
    destruct (near_par_pass b r Hr' Hbasin)
      as (calc & up & Hc & _ & _ & Hlow & _).
    destruct Hconv as (calc' & Hc' & Htol).
    rewrite Hc in Hc'. injection Hc' as <-.
    rewrite Hscale in Hlow.
    set (P := target_base ^ (Z.of_nat periods + 1)) in *.
    assert (HP : 0 < P) by (apply Qpower_0_lt; lra).
    assert (H9 : 9 * P * Qabs (calc - T) < 9 * P * default_tolerance).
    { apply Qmult_lt_l; [lra | exact Htol]. }
    assert (Hl : Qabs (r - y) * (8 * F)
                 == Qabs (r - y) * / inject_Z f * (8 * F) * inject_Z f)
      by (field; lra).
    rewrite Hl.
    assert (Hmul : Qabs (r - y) * / inject_Z f * (8 * F) * inject_Z f
                   <= 9 * P * Qabs (calc - T) * inject_Z f).
    { apply Qmult_le_compat_r; lra. }
    assert (Hlt : 9 * P * Qabs (calc - T) * inject_Z f
                  < 9 * P * default_tolerance * inject_Z f).
    { apply Qmult_lt_r; assumption. }
    lra.
Qed.

End NearPar.



(** * Further properties of the engine *)

(** ** Price against face value *)

(** With the yield equal to the coupon rate the bond prices at par. *)
Lemma price_at_coupon_yield (F c Y y : Q) (f : Z) :
  (0 < f)%Z -> y == c ->
  ~ 1 + y / inject_Z f == 0 \/ py_int (Y * inject_Z f) = 0%Z ->
  exists p, calculate_bond_price F c Y y f = Ok p /\ p == F.
Proof.
  intros Hf Hyc Hx.
  assert (Hf0 : ~ inject_Z f == 0) by (apply inject_Z_nonzero; lia).
  destruct (Qeq_dec y 0) as [Hy|Hy].
  - rewrite (price_zero_yield F c Y y f Hf Hy).
    eexists; split; [reflexivity|].
    rewrite <- Hyc, Hy. field. exact Hf0.
  - rewrite (price_general F c Y y f Hf Hy Hx).
    eexists; split; [reflexivity|].
    set (n := py_int (Y * inject_Z f)) in *.
    assert (Hp : ~ (1 + y / inject_Z f) ^ n == 0).
    { destruct Hx as [Hx|Hx]; [now apply Qpower_not_0|].
      rewrite Hx. simpl. discriminate. }
    rewrite Qpower_opp, <- Hyc. field. repeat split; assumption.
Qed.

(** Valid terms above the pole have a positive price. *)
Lemma price_positive (F c Y y : Q) (f : Z) :
  valid_bond_terms F c Y f -> 0 < 1 + y / inject_Z f ->
  exists p, calculate_bond_price F c Y y f = Ok p /\ 0 < p.
Proof.
  intros Hv Hx.
  destruct (valid_terms_periods F c Y f Hv) as (_ & Hn1 & _ & HC).
  destruct Hv as (HF & Hc & HY & Hf & _).
  pose proof (inject_Z_pos f Hf) as Hfp.
  destruct (Qeq_dec y 0) as [Hy|Hy].
  - rewrite (price_zero_yield F c Y y f Hf Hy).
    eexists; split; [reflexivity|].
    set (C := F * c / inject_Z f) in *.
    assert (0 <= C * Y) by nra. nra.
  - destruct (price_as_dcf F c Y y f Hf Hy Hx ltac:(lia)) as (p & -> & Hp).
    eexists; split; [reflexivity|]. rewrite Hp.
    apply annuity_pos_price; try assumption.
    now apply Qinv_lt_0_compat.
Qed.

Lemma positive_yield_base (y : Q) (f : Z) :
  (0 < f)%Z -> 0 < y -> 1 < 1 + y / inject_Z f.
Proof.
  intros Hf Hy. pose proof (inject_Z_pos f Hf) as Hfp.
  assert (0 < y / inject_Z f) by (apply Qlt_shift_div_l; [exact Hfp | lra]).
  lra.
Qed.

(** X1.  For valid bond terms and a positive yield the price is positive;
    it is the face value when the yield equals the coupon rate (par), at
    most the face value when the yield is above the coupon rate
    (discount), and at least the face value when it is below (premium). *)
Theorem price_against_face_value (F c Y y : Q) (f : Z) :
  valid_bond_terms F c Y f -> 0 < y ->
  exists p,
    calculate_bond_price F c Y y f = Ok p /\
    0 < p /\
    (y == c -> p == F) /\
    (c <= y -> p <= F) /\
    (y <= c -> F <= p).
Proof.
  intros Hv Hy.
  assert (Hf : (0 < f)%Z) by (destruct Hv as (_ & _ & _ & Hf & _); exact Hf).
  assert (Hc : 0 <= c) by (destruct Hv as (_ & Hc & _); exact Hc).
  pose proof (positive_yield_base y f Hf Hy) as Hx.
  destruct (price_positive F c Y y f Hv ltac:(lra)) as (p & Hp & Hpos).
  exists p. split; [exact Hp | split; [exact Hpos|]].
  assert (Hpar : y == c -> p == F).
  { intro Hyc.
    destruct (price_at_coupon_yield F c Y y f Hf Hyc) as (p' & Hp' & Hv');
      [left; lra|].
    assert (p' = p) by congruence. now subst. }
  split; [exact Hpar | split].
  - (* discount *)
    intro Hcy. destruct (Qeq_dec y c) as [Heq|Hne]; [rewrite (Hpar Heq); lra|].
    destruct (Qeq_dec c 0) as [Hc0|Hc0].
    + destruct (price_zero_branch_compare F c Y y f Hv ltac:(lra) ltac:(lra))
        as (p' & p0 & Hp' & Hp0 & Hle & _).
      rewrite (price_zero_yield F c Y 0 f Hf ltac:(reflexivity)) in Hp0.
      injection Hp0 as <-. assert (p' = p) by congruence. subst p'.
      specialize (Hle Hy).
      assert (Hz : F * c / inject_Z f * Y * inject_Z f + F == F).
      { rewrite Hc0. field. apply inject_Z_nonzero; lia. }
      lra.
    + assert (Hcpos : 0 < c) by lra.
      pose proof (positive_yield_base c f Hf Hcpos) as Hxc.
      destruct (price_antitone_off_zero F c Y f c y Hv ltac:(lra)
                  ltac:(lra) Hc0 ltac:(lra)) as (pc & p' & Hpc & Hp' & Hle).
      destruct (price_at_coupon_yield F c Y c f Hf ltac:(reflexivity))
        as (pc' & Hpc' & Hpar'); [left; lra|].
      assert (p' = p) by congruence. assert (pc' = pc) by congruence.
      subst. lra.
  - (* premium *)
    intro Hyc. destruct (Qeq_dec y c) as [Heq|Hne]; [rewrite (Hpar Heq); lra|].
    assert (Hcpos : 0 < c) by lra.
    destruct (price_antitone_off_zero F c Y f y c Hv ltac:(lra)
                ltac:(lra) ltac:(lra) ltac:(lra)) as (p' & pc & Hp' & Hpc & Hle).
    pose proof (positive_yield_base c f Hf Hcpos) as Hxc.
    destruct (price_at_coupon_yield F c Y c f Hf ltac:(reflexivity))
      as (pc' & Hpc' & Hpar'); [left; lra|].
    assert (p' = p) by congruence. assert (pc' = pc) by congruence.
    subst. lra.
Qed.

Lemma price_against_face_value_witness :
  exists p,
    calculate_bond_price 1000 (1 # 20) 5 (3 # 50) 2 = Ok p /\ 0 < p /\
    p <= 1000.
Proof.
  destruct (price_against_face_value 1000 (1 # 20) 5 (3 # 50) 2)
    as (p & Hp & Hpos & _ & Hd & _);
    [repeat split; try reflexivity; discriminate | reflexivity |].
  exists p. split; [exact Hp | split; [exact Hpos|]].
  apply Hd. discriminate.
Defined.

(** X2.  Given the face value as the price, the solver returns the coupon
    rate at its first pass: the initial guess already prices at par. *)
Theorem solver_returns_coupon_at_par (P F c Y : Q) (f : Z) (tol : Q)
    (max_iterations : Z) :
  (0 < f)%Z ->
  ~ 1 + c / inject_Z f == 0 \/ py_int (Y * inject_Z f) = 0%Z ->
  P == F -> 0 < tol -> (1 <= max_iterations)%Z ->
  calculate_yield_to_maturity P F c Y f tol max_iterations = Ok c.
Proof.
  intros Hf Hx HP Htol Hmax.
  apply (solver_returns_converged P F c Y f tol max_iterations 0 c);
    [lia | apply newton_run_done |].
  destruct (price_at_coupon_yield F c Y c f Hf ltac:(reflexivity) Hx)
    as (p & Hp & Hpar).
  exists p. split; [exact Hp|].
  apply Qabs_Qlt_condition. split; lra.
Qed.

Lemma solver_returns_coupon_at_par_witness :
  calculate_yield_to_maturity 1000 1000 (1 # 20) 5 2
    default_tolerance default_max_iterations = Ok (1 # 20).
Proof.
  apply (solver_returns_coupon_at_par 1000 1000 (1 # 20) 5 2);
    [reflexivity | left; discriminate | reflexivity | reflexivity
    | discriminate].
Defined.

(** X3.  The current yield of a bond with a positive face value and a
    non-negative coupon, at a positive price: at least the coupon rate
    when the price is at or below par, at most the coupon rate when at or
    above; at a zero price the division raises. *)
Theorem current_yield_against_coupon (price F c : Q) :
  0 < F -> 0 <= c ->
  (0 < price ->
   exists cy,
     calculate_current_yield price F c = Ok cy /\
     cy * price == F * c /\
     (price <= F -> c <= cy) /\
     (F <= price -> cy <= c)) /\
  (price == 0 ->
   calculate_current_yield price F c = Raise ZeroDivisionError).
Proof.
  intros HF Hc. unfold calculate_current_yield. split.
  - intro Hp. rewrite pydiv_ok by lra.
    eexists; split; [reflexivity|].
    assert (Hid : F * c / price * price == F * c) by (field; lra).
    split; [exact Hid | split; intro H].
    + apply Qle_shift_div_l; [exact Hp | nra].
    + apply Qle_shift_div_r; [exact Hp | nra].
  - intro Hp. now apply pydiv_zero.
Qed.

Lemma current_yield_against_coupon_witness :
  exists cy,
    calculate_current_yield 950 1000 (1 # 20) = Ok cy /\ (1 # 20) <= cy.
Proof.
  destruct (current_yield_against_coupon 950 1000 (1 # 20)) as (H & _);
    [reflexivity | discriminate |].
  destruct H as (cy & Hcy & _ & Hd & _); [reflexivity|].
  exists cy. split; [exact Hcy | apply Hd; discriminate].
Defined.

(** ** The duration and convexity loops as weighted sums *)

Lemma macaulay_loop_sum (C F i : Q) (n f : Z) (ts : list Z) (acc : Q) :
  ~ 1 + i == 0 -> (f <> 0)%Z ->
  exists W,
    macaulay_loop C F i n f ts acc = Ok W /\
    W == acc + weighted_pv (fun t => inject_Z t / inject_Z f) C F (1 + i) n ts.
Proof.
  intros Hx Hf. revert acc.
  induction ts as [|t ts IH]; intro acc.
  - exists acc. split; [reflexivity | simpl; ring].
  - cbn [macaulay_loop weighted_pv].
    rewrite pypow_ok by now left. cbn [bind].
    rewrite pydiv_ok by now apply Qpower_not_0. cbn [bind].
    rewrite pydiv_ok by now apply inject_Z_nonzero. cbn [bind].
    destruct (IH (acc + inject_Z t / inject_Z f
                        * (cash_flow_at C F n t / (1 + i) ^ t)))
      as (W & HW & Hv).
    exists W. split; [exact HW|]. rewrite Hv. ring.
Qed.

Lemma convexity_loop_sum (C F i : Q) (n : Z) (ts : list Z) (acc : Q) :
  ~ 1 + i == 0 ->
  exists S,
    convexity_loop C F i n ts acc = Ok S /\
    S == acc + weighted_pv (fun t => inject_Z (t * (t + 1))) C F (1 + i) n ts.
Proof.
  intros Hx. revert acc.
  induction ts as [|t ts IH]; intro acc.
  - exists acc. split; [reflexivity | simpl; ring].
  - cbn [convexity_loop weighted_pv].
    rewrite pypow_ok by now left. cbn [bind].
    rewrite pydiv_ok by now apply Qpower_not_0. cbn [bind].
    destruct (IH (acc + inject_Z (t * (t + 1))
                        * (cash_flow_at C F n t / (1 + i) ^ t)))
      as (S & HS & Hv).
    exists S. split; [exact HS|]. rewrite Hv. ring.
Qed.

Lemma weighted_pv_app (w : Z -> Q) (C F x : Q) (n : Z) (ts1 ts2 : list Z) :
  weighted_pv w C F x n (ts1 ++ ts2)
  == weighted_pv w C F x n ts1 + weighted_pv w C F x n ts2.
Proof.
  induction ts1 as [|t ts1 IH]; simpl; [ring|]. rewrite IH. ring.
Qed.

(** Weights between [lo] and [hi] on non-negative discounted cash
    flows. *)
Lemma weighted_pv_bounds (w : Z -> Q) (lo hi C F x : Q) (n : Z)
    (ts : list Z) :
  0 <= C -> 0 <= F -> 0 < x ->
  (forall t, In t ts -> lo <= w t /\ w t <= hi) ->
  0 <= weighted_pv (fun _ => 1) C F x n ts /\
  lo * weighted_pv (fun _ => 1) C F x n ts <= weighted_pv w C F x n ts /\
  weighted_pv w C F x n ts <= hi * weighted_pv (fun _ => 1) C F x n ts.
Proof.
  intros HC HF Hx. induction ts as [|t ts IH]; intro Hw.
  - simpl. lra.
  - cbn [weighted_pv].
    destruct IH as (H0 & H1 & H2); [intros u Hu; apply Hw; now right|].
    destruct (Hw t (or_introl eq_refl)) as (Hlo & Hhi).
    assert (Hcf : 0 <= cash_flow_at C F n t / x ^ t).
    { apply Qle_shift_div_l; [now apply Qpower_0_lt|].
      pose proof (cash_flow_nonneg C F n t HC HF). lra. }
    set (a := cash_flow_at C F n t / x ^ t) in *.
    set (P := weighted_pv (fun _ => 1) C F x n ts) in *.
    set (W := weighted_pv w C F x n ts) in *.
    repeat split; nra.
Qed.

Lemma annuity_succ_r (v : Q) (N : nat) :
  annuity v (S N) == annuity v N + v ^ Z.of_nat (S N).
Proof.
  induction N as [|N IH].
  - simpl. ring.
  - rewrite (Qpow_succ v (S N)).
    assert (Hp : v ^ Z.of_nat (S N) == annuity v (S N) - annuity v N)
      by (rewrite IH; ring).
    rewrite Hp. simpl annuity. ring.
Qed.

(** Before the last period every cash flow is the coupon. *)
Lemma pv_coupons_only (C F x : Q) (n : Z) (N : nat) :
  ~ x == 0 -> (Z.of_nat N < n)%Z ->
  weighted_pv (fun _ => 1) C F x n (range1 (Z.of_nat N))
  == C * annuity (/ x) N.
Proof.
  intros Hx. induction N as [|N IH]; intro HN.
  - simpl. ring.
  - destruct (range1_last (Z.of_nat (S N)) ltac:(lia)) as (-> & _).
    rewrite weighted_pv_app.
    replace (Z.of_nat (S N) - 1)%Z with (Z.of_nat N) by lia.
    rewrite IH by lia. rewrite annuity_succ_r.
    cbn [weighted_pv]. unfold cash_flow_at.
    destruct (Z.eqb_spec (Z.of_nat (S N)) n); [lia|].
    rewrite Qinv_power. field. now apply Qpower_not_0.
Qed.

(** Over all the periods the discounted cash flows add up to the
    discounted-cash-flow price. *)
Lemma pv_all_periods (C F x : Q) (n : Z) :
  ~ x == 0 -> (1 <= n)%Z ->
  weighted_pv (fun _ => 1) C F x n (range1 n)
  == dcf_price C F (/ x) (Z.to_nat n).
Proof.
  intros Hx Hn.
  destruct (range1_last n Hn) as (-> & _).
  rewrite weighted_pv_app.
  replace (n - 1)%Z with (Z.of_nat (Z.to_nat (n - 1))) at 1 by lia.
  rewrite pv_coupons_only by (try assumption; lia).
  unfold dcf_price.
  replace (Z.to_nat n) with (S (Z.to_nat (n - 1))) by lia.
  rewrite annuity_succ_r.
  replace (Z.of_nat (S (Z.to_nat (n - 1)))) with n by lia.
  cbn [weighted_pv]. unfold cash_flow_at. rewrite Z.eqb_refl.
  rewrite Qinv_power. field. now apply Qpower_not_0.
Qed.

(** What the Macaulay duration divides: the weighted sum [W] by the price
    [p], with the plain sum [PV] of the discounted cash flows between
    them. *)
Lemma macaulay_duration_parts (F c Y y : Q) (f : Z) :
  valid_bond_terms F c Y f -> 0 < 1 + y / inject_Z f ->
  exists d p W PV,
    calculate_macaulay_duration F c Y y f = Ok d /\
    calculate_bond_price F c Y y f = Ok p /\
    d == W / p /\ 0 < PV /\ PV <= p /\ (~ y == 0 -> p == PV) /\
    PV / inject_Z f <= W /\
    W <= inject_Z (py_int (Y * inject_Z f)) / inject_Z f * PV.
Proof.
  intros Hv Hx.
  destruct (valid_terms_periods F c Y f Hv) as (_ & Hn1 & Hnle & HC).
  destruct (price_positive F c Y y f Hv Hx) as (p & Hp & Hppos).
  destruct Hv as (HF & Hc & HY & Hf & _).
  pose proof (inject_Z_pos f Hf) as Hfp.
  assert (Hf0 : ~ inject_Z f == 0) by lra.
  assert (Hx0 : ~ 1 + y / inject_Z f == 0) by lra.
  set (n := py_int (Y * inject_Z f)) in *.
  set (C := F * c / inject_Z f) in *.
  set (x := 1 + y / inject_Z f) in *.
  unfold calculate_macaulay_duration. fold n.
  rewrite !pydiv_ok by exact Hf0. cbn [bind]. rewrite Hp. cbn [bind].
  fold C.
  destruct (macaulay_loop_sum C F (y / inject_Z f) n f (range1 n) 0
              Hx0 ltac:(lia)) as (W & -> & HW).
  cbn [bind]. rewrite pydiv_ok by lra.
  fold x in HW.
  set (PV := weighted_pv (fun _ => 1) C F x n (range1 n)).
  exists (W / p), p, W, PV.
  split; [reflexivity | split; [reflexivity | split; [reflexivity|]]].
  assert (HPV : PV == dcf_price C F (/ x) (Z.to_nat n))
    by (apply pv_all_periods; assumption).
  assert (HPVpos : 0 < PV).
  { rewrite HPV. apply annuity_pos_price; try assumption.
    now apply Qinv_lt_0_compat. }
  assert (Hgen : ~ y == 0 -> p == PV).
  { intro Hy.
    destruct (price_as_dcf F c Y y f Hf Hy Hx ltac:(lia)) as (p' & Hp' & Hpv).
    assert (p' = p) by congruence. subst p'. rewrite Hpv, HPV. reflexivity. }
  assert (Hle : PV <= p).
  { destruct (Qeq_dec y 0) as [Hy|Hy]; [|rewrite (Hgen Hy); lra].
    rewrite (price_zero_yield F c Y y f Hf Hy) in Hp. injection Hp as <-.
    assert (Hone : / x == / 1).
    { unfold x. rewrite Hy. field. exact Hf0. }
    rewrite HPV, (dcf_price_eq C F _ _ _ Hone).
    rewrite dcf_price_undiscounted by lia. fold C. nra. }
  split; [exact HPVpos | split; [exact Hle | split; [exact Hgen|]]].
  destruct (weighted_pv_bounds (fun t => inject_Z t / inject_Z f)
              (1 / inject_Z f) (inject_Z n / inject_Z f) C F x n (range1 n)
              HC (Qlt_le_weak _ _ HF) Hx) as (_ & Hlo & Hhi).
  { intros t Ht. apply range1_bounds in Ht.
    assert (inject_Z 1 <= inject_Z t <= inject_Z n)
      by (rewrite <- !Zle_Qle; lia).
    change (inject_Z 1) with 1 in *.
    split; apply Qmult_le_compat_r;
      try (apply Qlt_le_weak, Qinv_lt_0_compat, Hfp); tauto. }
  rewrite HW. fold PV in Hlo, Hhi. split.
  - assert (Heq : PV / inject_Z f == 1 / inject_Z f * PV) by (field; lra).
    rewrite Heq. lra.
  - lra.
Qed.

(** X4.  For valid bond terms and a yield above the pole that is zero or
    at least [1e-6] per period in absolute value ([yield_resolved]), the
    Macaulay duration is computed, is positive, and is at most the floored
    period count in years, hence at most [years_to_maturity]; off the
    zero-yield branch it is at least one period, [1 / frequency].  Nearer
    to zero the binary64 price in the denominator loses its coupons and
    the quotient can exceed the maturity, so those yields are left out. *)
Theorem macaulay_duration_bounds (F c Y y : Q) (f : Z) :
  valid_bond_terms F c Y f -> 0 < 1 + y / inject_Z f ->
  yield_resolved y f ->
  exists d,
    calculate_macaulay_duration F c Y y f = Ok d /\
    0 < d /\
    d <= inject_Z (Qfloor (Y * inject_Z f)) / inject_Z f /\
    d <= Y /\
    (~ y == 0 -> 1 / inject_Z f <= d).
Proof.
  intros Hv Hx _.
  destruct (macaulay_duration_parts F c Y y f Hv Hx)
    as (d & p & W & PV & Hd & _ & Hdv & HPV & Hle & Hgen & Hlo & Hhi).
  destruct (valid_terms_periods F c Y f Hv) as (Hnfl & Hn1 & Hnle & _).
  destruct Hv as (_ & _ & _ & Hf & _).
  pose proof (inject_Z_pos f Hf) as Hfp.
  rewrite <- Hnfl. set (n := py_int (Y * inject_Z f)) in *.
  assert (Hp : 0 < p) by lra.
  assert (Hnf : 0 <= inject_Z n / inject_Z f).
  { apply Qle_shift_div_l; [exact Hfp|].
    assert (inject_Z 0 <= inject_Z n) by (rewrite <- Zle_Qle; lia).
    change (inject_Z 0) with 0 in *. lra. }
  assert (HWpos : 0 < W).
  { assert (0 < PV / inject_Z f)
      by (apply Qlt_shift_div_l; [exact Hfp | lra]).
    lra. }
  exists d. split; [exact Hd|]. rewrite Hdv.
  assert (Hupper : W / p <= inject_Z n / inject_Z f).
  { apply Qle_shift_div_r; [exact Hp | nra]. }
  split; [apply Qlt_shift_div_l; [exact Hp | lra] | split; [exact Hupper|]].
  split.
  - assert (inject_Z n / inject_Z f <= Y)
      by (apply Qle_shift_div_r; [exact Hfp | lra]).
    lra.
  - intro Hy. specialize (Hgen Hy).
    apply Qle_shift_div_l; [exact Hp|].
    assert (Heq : 1 / inject_Z f * p == PV / inject_Z f)
      by (rewrite Hgen; field; lra).
    lra.
Qed.

Lemma macaulay_duration_bounds_witness :
  exists d,
    calculate_macaulay_duration 1000 (1 # 20) 5 (3 # 50) 2 = Ok d /\
    0 < d /\ d <= 5.
Proof.
  destruct (macaulay_duration_bounds 1000 (1 # 20) 5 (3 # 50) 2)
    as (d & Hd & Hpos & _ & HY & _);
    [repeat split; try reflexivity; discriminate | reflexivity
    | right; vm_compute; discriminate |].
  exists d. split; [exact Hd | split; [exact Hpos | exact HY]].
Defined.

(** X5.  For valid bond terms above the pole the modified duration is the
    Macaulay duration divided by [1 + yield / frequency]: it is positive,
    at most the Macaulay duration on a non-negative yield and at least it
    on a non-positive one. *)
Theorem modified_duration_against_macaulay (F c Y y : Q) (f : Z) :
  valid_bond_terms F c Y f -> 0 < 1 + y / inject_Z f ->
  exists d m,
    calculate_macaulay_duration F c Y y f = Ok d /\
    calculate_modified_duration F c Y y f = Ok m /\
    m * (1 + y / inject_Z f) == d /\
    0 < m /\
    (0 <= y -> m <= d) /\
    (y <= 0 -> d <= m).
Proof.
  intros Hv Hx.
  destruct (macaulay_duration_parts F c Y y f Hv Hx)
    as (d & p & W & PV & Hd & _ & Hdv & HPV & Hle & _ & Hlo & _).
  destruct Hv as (_ & _ & _ & Hf & _).
  pose proof (inject_Z_pos f Hf) as Hfp.
  assert (Hdpos : 0 < d).
  { rewrite Hdv. apply Qlt_shift_div_l; [lra|].
    assert (0 < PV / inject_Z f)
      by (apply Qlt_shift_div_l; [exact Hfp | lra]).
    lra. }
  exists d, (d / (1 + y / inject_Z f)).
  split; [exact Hd|]. split.
  - unfold calculate_modified_duration. rewrite Hd. cbn [bind].
    rewrite pydiv_ok by lra. cbn [bind]. now rewrite pydiv_ok by lra.
  - destruct (discount_base_sign y f Hf) as (Hge & Hle').
    set (x := 1 + y / inject_Z f) in *.
    assert (Hm : d / x * x == d) by (field; lra).
    assert (Hmpos : 0 < d / x) by (apply Qlt_shift_div_l; lra).
    split; [exact Hm | split; [exact Hmpos|]].
    split; intro Hy; [specialize (Hge Hy) | specialize (Hle' Hy)]; nra.
Qed.

Lemma modified_duration_against_macaulay_witness :
  exists d m,
    calculate_macaulay_duration 1000 (1 # 20) 5 (3 # 50) 2 = Ok d /\
    calculate_modified_duration 1000 (1 # 20) 5 (3 # 50) 2 = Ok m /\
    0 < m /\ m <= d.
Proof.
  destruct (modified_duration_against_macaulay 1000 (1 # 20) 5 (3 # 50) 2)
    as (d & m & Hd & Hm & _ & Hpos & Hle & _);
    [repeat split; try reflexivity; discriminate | reflexivity |].
  exists d, m. repeat split; try assumption. apply Hle. discriminate.
Defined.

(** ** Zero-coupon convexity and bonds without a period *)

Lemma weighted_pv_no_coupon (w : Z -> Q) (C F x : Q) (n : Z) (ts : list Z) :
  C == 0 -> ~ x == 0 -> (forall t, In t ts -> t <> n) ->
  weighted_pv w C F x n ts == 0.
Proof.
  intros HC Hx. induction ts as [|t ts IH]; intro Hts; [reflexivity|].
  cbn [weighted_pv]. rewrite IH by (intros u Hu; apply Hts; now right).
  unfold cash_flow_at.
  assert (Hne : (t =? n)%Z = false) by (apply Z.eqb_neq, Hts; now left).
  rewrite Hne, HC. field. now apply Qpower_not_0.
Qed.

Lemma zero_coupon_price (F c Y y : Q) (f : Z) :
  c == 0 -> (0 < f)%Z -> 0 < 1 + y / inject_Z f ->
  exists p, calculate_bond_price F c Y y f = Ok p /\
            p == F / (1 + y / inject_Z f) ^ py_int (Y * inject_Z f).
Proof.
  intros Hc Hf Hx.
  assert (Hf0 : ~ inject_Z f == 0) by (apply inject_Z_nonzero; lia).
  assert (HC : F * c / inject_Z f == 0) by (rewrite Hc; field; exact Hf0).
  pose proof (Qpower_0_lt _ (py_int (Y * inject_Z f)) Hx) as Hxn.
  destruct (Qeq_dec y 0) as [Hy|Hy].
  - rewrite (price_zero_yield F c Y y f Hf Hy).
    eexists; split; [reflexivity|]. rewrite HC.
    assert (Hone : 1 + y / inject_Z f == 1) by (rewrite Hy; field; exact Hf0).
    rewrite Hone, Qpower_1. field.
  - assert (Hx0 : ~ 1 + y / inject_Z f == 0) by lra.
    rewrite (price_general F c Y y f Hf Hy (or_introl Hx0)).
    eexists; split; [reflexivity|].
    rewrite HC. field. repeat split; try assumption; lra.
Qed.

(** X6.  For a zero-coupon bond with a non-zero face value, at least one
    period and a positive discount base, the convexity is
    [n * (n + 1) / ((1 + yield/f)^2 * f^2)] for the floored period count
    [n]: the face value cancels. *)
Theorem zero_coupon_convexity (F c Y y : Q) (f : Z) :
  c == 0 -> ~ F == 0 -> (0 < f)%Z ->
  (1 <= Qfloor (Y * inject_Z f))%Z ->
  0 < 1 + y / inject_Z f ->
  exists v,
    calculate_convexity F c Y y f = Ok v /\
    v == inject_Z (Qfloor (Y * inject_Z f) * (Qfloor (Y * inject_Z f) + 1))
         / ((1 + y / inject_Z f) ^ 2 * inject_Z (f ^ 2)).
Proof.
  intros Hc HF Hf Hn Hx.
  pose proof (inject_Z_pos f Hf) as Hfp.
  assert (Hf0 : ~ inject_Z f == 0) by lra.
  assert (HYf : 0 <= Y * inject_Z f).
  { destruct (Qlt_le_dec (Y * inject_Z f) 0) as [Hneg|]; [|assumption].
    exfalso.
    assert (Hle : (Qfloor (Y * inject_Z f) <= Qfloor 0)%Z)
      by (apply Qfloor_resp_le; lra).
    change (Qfloor 0) with 0%Z in Hle. lia. }
  rewrite <- (py_int_floor _ HYf) in *.
  destruct (zero_coupon_price F c Y y f Hc Hf Hx) as (p & Hp & Hpv).
  set (n := py_int (Y * inject_Z f)) in *.
  set (x := 1 + y / inject_Z f) in *.
  assert (Hx0 : ~ x == 0) by lra.
  assert (HC : F * c / inject_Z f == 0) by (rewrite Hc; field; exact Hf0).
  pose proof (Qpower_0_lt x n Hx) as Hxn.
  pose proof (Qpower_0_lt x 2 Hx) as Hx2.
  assert (Hf2 : 0 < inject_Z (f ^ 2)) by (apply inject_Z_pos; nia).
  assert (Hp0 : ~ p == 0).
  { rewrite Hpv. intro H. apply HF.
    rewrite <- (Qmult_div_r F (x ^ n)) by lra. rewrite H. ring. }
  unfold calculate_convexity. fold n.
  rewrite !pydiv_ok by exact Hf0. cbn [bind]. rewrite Hp. cbn [bind].
  destruct (convexity_loop_sum (F * c / inject_Z f) F (y / inject_Z f) n
              (range1 n) 0 Hx0) as (S & -> & HS).
  cbn [bind]. rewrite pypow_ok by (right; lia). cbn [bind]. fold x.
  assert (Hden : ~ p * x ^ 2 * inject_Z (f ^ 2) == 0).
  { intro H. apply Hp0.
    assert (Hq : p * (x ^ 2 * inject_Z (f ^ 2)) == 0) by (rewrite <- H; ring).
    apply Qmult_integral in Hq. destruct Hq as [Hq|Hq]; [exact Hq|].
    apply Qmult_integral in Hq. destruct Hq; lra. }
  rewrite pydiv_ok by exact Hden.
  eexists; split; [reflexivity|].
  fold x in HS.
  destruct (range1_last n Hn) as (Hsplit & Hbefore).
  rewrite Hsplit, weighted_pv_app in HS.
  rewrite (weighted_pv_no_coupon _ _ F x n _ HC Hx0 Hbefore) in HS.
  cbn [weighted_pv] in HS. unfold cash_flow_at in HS.
  rewrite Z.eqb_refl, HC in HS.
  assert (HS' : S == inject_Z (n * (n + 1)) * p)
    by (rewrite HS, Hpv; field; lra).
  rewrite HS'. field. repeat split; try assumption; lra.
Qed.

Lemma zero_coupon_convexity_witness :
  exists v,
    calculate_convexity 1000 0 10 (1 # 25) 1 = Ok v /\
    v == inject_Z 110 / ((1 + (1 # 25)) ^ 2).
Proof.
  destruct (zero_coupon_convexity 1000 0 10 (1 # 25) 1) as (v & Hv & Heq);
    [reflexivity | discriminate | reflexivity | discriminate | reflexivity |].
  exists v. split; [exact Hv|]. rewrite Heq. reflexivity.
Defined.

(** X7.  A bond without a period ([int(years * frequency) = 0]) on a
    non-zero yield off the pole: the schedule is empty, whatever the
    start date, and with a non-zero face value the duration and the
    convexity are zero; with a zero face value the price is zero and both
    divisions raise. *)
Theorem zero_period_metrics (now : datetime) (F c Y y : Q) (f : Z)
    (start_date : option datetime) :
  (0 < f)%Z -> py_int (Y * inject_Z f) = 0%Z ->
  ~ y == 0 -> ~ 1 + y / inject_Z f == 0 ->
  generate_cash_flow_schedule now F c Y f start_date = Ok [] /\
  (~ F == 0 ->
   (exists d, calculate_macaulay_duration F c Y y f = Ok d /\ d == 0) /\
   (exists v, calculate_convexity F c Y y f = Ok v /\ v == 0)) /\
  (F == 0 ->
   calculate_macaulay_duration F c Y y f = Raise ZeroDivisionError /\
   calculate_convexity F c Y y f = Raise ZeroDivisionError).
Proof.
  intros Hf Hn Hy Hx.
  assert (Hf0 : ~ inject_Z f == 0) by (apply inject_Z_nonzero; lia).
  assert (Hprice : exists p, calculate_bond_price F c Y y f = Ok p /\ p == F).
  { rewrite (price_general F c Y y f Hf Hy (or_introl Hx)).
    eexists; split; [reflexivity|].
    rewrite Hn. simpl Z.opp. simpl Qpower. field.
    split; [exact Hf0 | exact Hy]. }
  destruct Hprice as (p & Hp & Hpv).
  assert (Hx2 : ~ (1 + y / inject_Z f) ^ 2 == 0) by now apply Qpower_not_0.
  assert (Hf2 : ~ inject_Z (f ^ 2) == 0) by (apply inject_Z_nonzero; nia).
  assert (Hmac : calculate_macaulay_duration F c Y y f = pydiv 0 p).
  { unfold calculate_macaulay_duration.
    rewrite !pydiv_ok by exact Hf0. cbn [bind]. rewrite Hp, Hn. reflexivity. }
  assert (Hcvx : calculate_convexity F c Y y f
                 = pydiv 0 (p * (1 + y / inject_Z f) ^ 2 * inject_Z (f ^ 2))).
  { unfold calculate_convexity.
    rewrite !pydiv_ok by exact Hf0. cbn [bind]. rewrite Hp, Hn.
    cbn [range1 Z.to_nat seq map convexity_loop bind].
    now rewrite pypow_ok by (right; lia). }
  split; [|split].
  - unfold generate_cash_flow_schedule.
    rewrite pydiv_ok by exact Hf0. cbn [bind].
    unfold pyfloordiv. destruct (Z.eqb_spec f 0); [lia|].
    cbn [bind]. now rewrite Hn.
  - intro HF. assert (Hp0 : ~ p == 0) by (rewrite Hpv; exact HF). split.
    + rewrite Hmac, pydiv_ok by exact Hp0.
      eexists; split; [reflexivity | unfold Qdiv; ring].
    + assert (Hden : ~ p * (1 + y / inject_Z f) ^ 2 * inject_Z (f ^ 2) == 0).
      { intro H. apply Qmult_integral in H.
        destruct H as [H|H]; [|contradiction].
        apply Qmult_integral in H. destruct H; contradiction. }
      rewrite Hcvx, pydiv_ok by exact Hden.
      eexists; split; [reflexivity | unfold Qdiv; ring].
  - intro HF. assert (Hp0 : p == 0) by (rewrite Hpv; exact HF). split.
    + rewrite Hmac. now apply pydiv_zero.
    + rewrite Hcvx. apply pydiv_zero. rewrite Hp0. ring.
Qed.

Lemma zero_period_metrics_witness :
  generate_cash_flow_schedule (mk_datetime 1 0) 1000 (1 # 20) (3 # 10) 2 None
  = Ok [] /\
  exists d, calculate_macaulay_duration 1000 (1 # 20) (3 # 10) (1 # 25) 2
            = Ok d /\ d == 0.
Proof.
  destruct (zero_period_metrics (mk_datetime 1 0) 1000 (1 # 20) (3 # 10)
              (1 # 25) 2 None) as (Hs & Hd & _);
    [reflexivity | reflexivity | discriminate | discriminate |].
  split; [exact Hs|]. apply Hd. discriminate.
Defined.

(** ** The schedule in closed form *)

Lemma schedule_closed_form (now : datetime) (F c Y : Q) (f : Z)
    (start : datetime) :
  (0 < f)%Z -> (MINORDINAL <= toordinal start)%Z ->
  (toordinal start + py_int (Y * inject_Z f) * 365 / f <= MAXORDINAL)%Z ->
  generate_cash_flow_schedule now F c Y f (Some start) =
  Ok (map (fun i =>
             (mk_datetime (toordinal start + i * 365 / f) (day_micros start),
              cash_flow_at (F * c / inject_Z f) F
                (py_int (Y * inject_Z f)) i))
          (range1 (py_int (Y * inject_Z f)))).
Proof.
  intros Hf Hs Hmax. unfold generate_cash_flow_schedule.
  rewrite pydiv_ok by (apply inject_Z_nonzero; lia). cbn [bind].
  unfold pyfloordiv. destruct (Z.eqb_spec f 0); [lia|]. cbn [bind].
  rewrite schedule_loop_ok; try assumption; [reflexivity|].
  intros i Hi. apply range1_bounds in Hi. split; [lia|].
  assert ((i * 365 / f <= py_int (Y * inject_Z f) * 365 / f)%Z)
    by (apply Z.div_le_mono; lia).
  lia.
Qed.

Lemma present_value_of_cash_flows (C F x : Q) (n : Z) (N K : nat) :
  present_value_from x (Z.of_nat K)
    (map (cash_flow_at C F n) (map Z.of_nat (seq K N)))
  == weighted_pv (fun _ => 1) C F x n (map Z.of_nat (seq K N)).
Proof.
  revert K. induction N as [|N IH]; intro K; [reflexivity|].
  cbn [seq map present_value_from weighted_pv].
  replace (Z.of_nat K + 1)%Z with (Z.of_nat (S K)) by lia.
  rewrite IH. ring.
Qed.

(** X8.  The price is the present value of the generated schedule: for a
    bond with at least one period and a yield above the pole, each amount
    of the schedule discounted by [(1 + yield/f)^i] adds up to the price,
    on a yield of at least [1e-6] per period in absolute value, and on a
    zero yield when [years * frequency] is whole.  Non-zero yields nearer
    to zero are left out: there the binary64 annuity term cancels and the
    code's price falls short of the discounted sum. *)
Theorem price_is_schedule_present_value (now : datetime) (F c Y y : Q)
    (f : Z) (start : datetime) :
  (0 < f)%Z -> (1 <= py_int (Y * inject_Z f))%Z ->
  0 < 1 + y / inject_Z f ->
  (MINORDINAL <= toordinal start)%Z ->
  (toordinal start + py_int (Y * inject_Z f) * 365 / f <= MAXORDINAL)%Z ->
  yield_resolved y f ->
  ~ y == 0 \/ inject_Z (py_int (Y * inject_Z f)) == Y * inject_Z f ->
  exists schedule p,
    generate_cash_flow_schedule now F c Y f (Some start) = Ok schedule /\
    calculate_bond_price F c Y y f = Ok p /\
    p == present_value (1 + y / inject_Z f) (map snd schedule).
Proof.
  intros Hf Hn Hx Hs Hmax _ Hcase.
  rewrite (schedule_closed_form now F c Y f start Hf Hs Hmax).
  assert (Hf0 : ~ inject_Z f == 0) by (apply inject_Z_nonzero; lia).
  set (n := py_int (Y * inject_Z f)) in *.
  set (C := F * c / inject_Z f) in *.
  set (x := 1 + y / inject_Z f) in *.
  assert (HPV : present_value x
                  (map snd
                     (map (fun i =>
                             (mk_datetime (toordinal start + i * 365 / f)
                                (day_micros start),
                              cash_flow_at C F n i)) (range1 n)))
                == dcf_price C F (/ x) (Z.to_nat n)).
  { rewrite map_map. cbn [snd]. unfold present_value, range1.
    rewrite (present_value_of_cash_flows C F x n (Z.to_nat n) 1).
    apply (pv_all_periods C F x n); [lra | exact Hn]. }
  destruct (Qeq_dec y 0) as [Hy|Hy].
  - destruct Hcase as [Hne|Hwhole]; [contradiction|].
    rewrite (price_zero_yield F c Y y f Hf Hy).
    do 2 eexists; split; [reflexivity | split; [reflexivity|]].
    rewrite HPV.
    assert (Hone : / x == / 1) by (unfold x; rewrite Hy; field; exact Hf0).
    rewrite (dcf_price_eq C F _ _ _ Hone).
    rewrite dcf_price_undiscounted by lia. fold C. rewrite Hwhole. ring.
  - destruct (price_as_dcf F c Y y f Hf Hy Hx ltac:(lia)) as (p & -> & Hp).
    do 2 eexists; split; [reflexivity | split; [reflexivity|]].
    rewrite Hp, HPV. reflexivity.
Qed.

Lemma price_is_schedule_present_value_witness :
  exists schedule p,
    generate_cash_flow_schedule (mk_datetime 1 0) 1000 (1 # 20) 1 2
      (Some (mk_datetime 738000 0)) = Ok schedule /\
    calculate_bond_price 1000 (1 # 20) 1 (3 # 50) 2 = Ok p /\
    p == present_value (1 + (3 # 50) / inject_Z 2) (map snd schedule).
Proof.
  apply (price_is_schedule_present_value (mk_datetime 1 0) 1000 (1 # 20) 1
           (3 # 50) 2 (mk_datetime 738000 0));
    [reflexivity | discriminate | reflexivity | discriminate | discriminate
    | right; vm_compute; discriminate | left; discriminate].
Defined.

Lemma range1_map_nth {A : Type} (g : Z -> A) (n : Z) (i : nat) (e : A) :
  nth_error (map g (range1 n)) i = Some e -> g (Z.of_nat (S i)) = e.
Proof.
  unfold range1. rewrite !nth_error_map, nth_error_seq.
  destruct (Nat.ltb i (Z.to_nat n)); [|discriminate].
  cbn [option_map Nat.add]. congruence.
Qed.

Lemma day_offset_strict (i j f : Z) :
  (0 < f <= 365)%Z -> (i < j)%Z -> (i * 365 / f < j * 365 / f)%Z.
Proof.
  intros Hf Hij.
  assert (H1 : ((i * 365 + 1 * f) / f <= j * 365 / f)%Z)
    by (apply Z.div_le_mono; nia).
  rewrite Z.div_add in H1 by lia. lia.
Qed.

(** X9.  Every payment of a schedule keeps the time of day of the start
    and is dated on or after the start date, and the dates never go back
    from one payment to the next; with at most 365 payments a year every
    payment is dated strictly after the start and the dates are strictly
    increasing. *)
Theorem schedule_dates_increase (now : datetime) (F c Y : Q) (f : Z)
    (start : datetime) :
  (0 < f)%Z -> (MINORDINAL <= toordinal start)%Z ->
  (toordinal start + py_int (Y * inject_Z f) * 365 / f <= MAXORDINAL)%Z ->
  exists schedule,
    generate_cash_flow_schedule now F c Y f (Some start) = Ok schedule /\
    (forall (i : nat) (d : datetime) (a : Q),
       nth_error schedule i = Some (d, a) ->
       day_micros d = day_micros start /\
       (toordinal start <= toordinal d)%Z /\
       ((f <= 365)%Z -> (toordinal start < toordinal d)%Z)) /\
    (forall (i j : nat) (d1 d2 : datetime) (a1 a2 : Q),
       (i < j)%nat ->
       nth_error schedule i = Some (d1, a1) ->
       nth_error schedule j = Some (d2, a2) ->
       (toordinal d1 <= toordinal d2)%Z /\
       ((f <= 365)%Z -> (toordinal d1 < toordinal d2)%Z)).
Proof.
  intros Hf Hs Hmax.
  rewrite (schedule_closed_form now F c Y f start Hf Hs Hmax).
  eexists; split; [reflexivity|]. split.
  - intros i d a H1. apply range1_map_nth in H1.
    remember (Z.of_nat (S i)) as zi eqn:Hzi.
    injection H1 as <- _. cbn [toordinal day_micros].
    split; [reflexivity|].
    assert (H0 : (0 <= zi * 365 / f)%Z) by (apply Z.div_pos; lia).
    split; [lia|]. intro H365.
    pose proof (day_offset_strict 0 zi f ltac:(lia) ltac:(lia)) as Hfirst.
    change (0 * 365 / f)%Z with (0 / f)%Z in Hfirst.
    rewrite Z.div_0_l in Hfirst by lia. lia.
  - intros i j d1 d2 a1 a2 Hij H1 H2.
    apply range1_map_nth in H1. apply range1_map_nth in H2.
    remember (Z.of_nat (S i)) as zi eqn:Hzi.
    remember (Z.of_nat (S j)) as zj eqn:Hzj.
    injection H1 as <- _. injection H2 as <- _. cbn [toordinal].
    assert (Hle : (zi * 365 / f <= zj * 365 / f)%Z)
      by (apply Z.div_le_mono; lia).
    split; [lia|]. intro H365.
    pose proof (day_offset_strict zi zj f ltac:(lia) ltac:(lia)). lia.
Qed.

(** On a one-year quarterly schedule starting at day 738000, midnight:
    the four payments fall on days 738091, 738182, 738273 and 738365, each
    at midnight and after the start, and the first is before the last. *)
Lemma schedule_dates_increase_witness :
  exists schedule,
    generate_cash_flow_schedule (mk_datetime 1 0) 1000 (1 # 20) 1 4
      (Some (mk_datetime 738000 0)) = Ok schedule /\
    map (fun e => toordinal (fst e)) schedule
      = [738091; 738182; 738273; 738365]%Z /\
    (forall (i : nat) (d : datetime) (a : Q),
       nth_error schedule i = Some (d, a) ->
       day_micros d = 0%Z /\ (738000 < toordinal d)%Z) /\
    (forall (d1 d2 : datetime) (a1 a2 : Q),
       nth_error schedule 0 = Some (d1, a1) ->
       nth_error schedule 3 = Some (d2, a2) ->
       (toordinal d1 < toordinal d2)%Z).
Proof.
  destruct (schedule_dates_increase (mk_datetime 1 0) 1000 (1 # 20) 1 4
              (mk_datetime 738000 0)) as (s & Hs & Hone & Hpair);
    [reflexivity | discriminate | discriminate |].
  exists s. split; [exact Hs|]. split.
  - vm_compute in Hs. injection Hs as <-. reflexivity.
  - split.
    + intros i d a Hi. destruct (Hone i d a Hi) as (Hm & _ & Hlt).
      split; [exact Hm | apply Hlt; discriminate].
    + intros d1 d2 a1 a2 H1 H2.
      destruct (Hpair 0%nat 3%nat d1 d2 a1 a2 ltac:(lia) H1 H2) as (_ & Hlt).
      apply Hlt. discriminate.
Defined.

(** ** Accrued interest and the frequency *)

(** X10.  The payment frequency cancels out of the accrued interest: for
    every non-zero frequency it is [F * c * d / 365], the annual coupon
    prorated over a 365-day year; a zero frequency raises. *)
Theorem accrued_interest_ignores_frequency (F c : Q)
    (last_coupon_date settlement_date : datetime) (f : Z) :
  ((f <> 0)%Z ->
   exists a,
     calculate_accrued_interest F c last_coupon_date settlement_date f
     = Ok a /\
     a == F * c * inject_Z (days_between settlement_date last_coupon_date)
          / 365) /\
  (f = 0%Z ->
   calculate_accrued_interest F c last_coupon_date settlement_date f
   = Raise ZeroDivisionError).
Proof.
  unfold calculate_accrued_interest. split.
  - intro Hf. pose proof (inject_Z_nonzero f Hf) as Hf0.
    assert (Hp : ~ 365 / inject_Z f == 0).
    { intro H. assert (H365 : 365 == 365 / inject_Z f * inject_Z f)
        by (field; exact Hf0).
      rewrite H in H365. revert H365. discriminate. }
    rewrite !pydiv_ok by assumption. cbn [bind].
    rewrite pydiv_ok by exact Hp. cbn [bind].
    eexists; split; [reflexivity|]. field. exact Hf0.
  - intros ->. reflexivity.
Qed.

(** X11.  With [frequency = 0] every routine of the engine raises
    [ZeroDivisionError] at its first division; the solver does so as soon
    as it prices once, and returns the coupon rate untouched when
    [max_iterations] allows no pass. *)
Theorem zero_frequency_raises (now : datetime) (price F c Y y tol : Q)
    (max_iterations : Z) (start_date : option datetime) :
  calculate_bond_price F c Y y 0 = Raise ZeroDivisionError /\
  calculate_macaulay_duration F c Y y 0 = Raise ZeroDivisionError /\
  calculate_modified_duration F c Y y 0 = Raise ZeroDivisionError /\
  calculate_convexity F c Y y 0 = Raise ZeroDivisionError /\
  generate_cash_flow_schedule now F c Y 0 start_date
  = Raise ZeroDivisionError /\
  ((1 <= max_iterations)%Z ->
   calculate_yield_to_maturity price F c Y 0 tol max_iterations
   = Raise ZeroDivisionError) /\
  ((max_iterations <= 0)%Z ->
   calculate_yield_to_maturity price F c Y 0 tol max_iterations = Ok c).
Proof.
  assert (Hprice : forall z, calculate_bond_price F c Y z 0
                             = Raise ZeroDivisionError).
  { intro z. unfold calculate_bond_price.
    destruct (Qeq_bool z 0); reflexivity. }
  assert (Hmac : calculate_macaulay_duration F c Y y 0
                 = Raise ZeroDivisionError) by reflexivity.
  split; [apply Hprice|]. split; [exact Hmac|].
  split; [unfold calculate_modified_duration; now rewrite Hmac|].
  split; [reflexivity|].
  split;
    [unfold generate_cash_flow_schedule; destruct start_date; reflexivity|].
  split.
  - intro Hmax. unfold calculate_yield_to_maturity.
    destruct (Z.to_nat max_iterations) as [|k] eqn:E; [lia|].
    cbn [ytm_loop]. now rewrite Hprice.
  - intro Hmax. unfold calculate_yield_to_maturity.
    replace (Z.to_nat max_iterations) with 0%nat by lia. reflexivity.
Qed.

(** * Properties of the data models *)

(** ** Positions *)

(** X12.  A position's market value is its book value plus its unrealized
    P&L as long as the current price is missing or non-zero; a current
    price of exactly zero is taken for a missing one by [market_value],
    which then equals the book value, while the P&L is the whole book
    value lost. *)
Theorem position_value_decomposition (pos : BondPosition.t) :
  match BondPosition.current_price pos with
  | None =>
      BondPosition.market_value pos == BondPosition.book_value pos /\
      BondPosition.unrealized_pnl pos == 0
  | Some p =>
      (~ p == 0 ->
       BondPosition.market_value pos
       == BondPosition.book_value pos + BondPosition.unrealized_pnl pos) /\
      (p == 0 ->
       BondPosition.market_value pos == BondPosition.book_value pos /\
       BondPosition.unrealized_pnl pos == - BondPosition.book_value pos)
  end.
Proof.
  unfold BondPosition.market_value, BondPosition.book_value,
    BondPosition.unrealized_pnl.
  destruct (BondPosition.current_price pos) as [p|].
  - split; intro Hp.
    + destruct (Qeq_bool p 0) eqn:E; [apply Qeq_bool_iff in E; contradiction|].
      ring.
    + apply Qeq_bool_iff in Hp. rewrite Hp. apply Qeq_bool_iff in Hp.
      split; [reflexivity | rewrite Hp; ring].
  - split; reflexivity.
Qed.

(** X13.  The P&L percentage of a priced position raises on a zero
    purchase price; otherwise it is the P&L per hundred of book value.  An
    unpriced position reports zero. *)
Theorem position_pnl_percent (pos : BondPosition.t) :
  match BondPosition.current_price pos with
  | None => BondPosition.unrealized_pnl_percent pos = Ok 0
  | Some p =>
      (BondPosition.purchase_price pos == 0 ->
       BondPosition.unrealized_pnl_percent pos = Raise ZeroDivisionError) /\
      (~ BondPosition.purchase_price pos == 0 ->
       exists r,
         BondPosition.unrealized_pnl_percent pos = Ok r /\
         r * BondPosition.book_value pos
         == 100 * BondPosition.unrealized_pnl pos)
  end.
Proof.
  unfold BondPosition.unrealized_pnl_percent, BondPosition.book_value,
    BondPosition.unrealized_pnl.
  destruct (BondPosition.current_price pos) as [p|]; [|reflexivity].
  split; intro Hpp.
  - now rewrite pydiv_zero.
  - rewrite pydiv_ok by exact Hpp. cbn [bind].
    eexists; split; [reflexivity|]. field. exact Hpp.
Qed.

(** ** Portfolios *)

Lemma pysum_acc (l : list Q) (acc : Q) :
  fold_left Qplus l acc == acc + pysum l.
Proof.
  unfold pysum. revert acc. induction l as [|a l IH]; intro acc.
  - simpl. ring.
  - cbn [fold_left]. rewrite (IH (acc + a)), (IH (0 + a)). ring.
Qed.

Lemma pysum_cons (a : Q) (l : list Q) : pysum (a :: l) == a + pysum l.
Proof.
  unfold pysum at 1. cbn [fold_left]. rewrite pysum_acc. ring.
Qed.

Lemma pysum_snoc (l : list Q) (a : Q) : pysum (l ++ [a]) = pysum l + a.
Proof. unfold pysum. now rewrite fold_left_app. Qed.

(** X14.  Adding a position appends it: each of the three totals grows by
    exactly the position's own figure, and name and currency stay. *)
Theorem add_position_totals (pf : Portfolio.t) (pos : BondPosition.t) :
  let pf' := Portfolio.add_position pf pos in
  Portfolio.positions pf' = Portfolio.positions pf ++ [pos] /\
  Portfolio.total_market_value pf'
  = Portfolio.total_market_value pf + BondPosition.market_value pos /\
  Portfolio.total_book_value pf'
  = Portfolio.total_book_value pf + BondPosition.book_value pos /\
  Portfolio.total_unrealized_pnl pf'
  = Portfolio.total_unrealized_pnl pf + BondPosition.unrealized_pnl pos /\
  Portfolio.name pf' = Portfolio.name pf /\
  Portfolio.currency pf' = Portfolio.currency pf.
Proof.
  unfold Portfolio.total_market_value, Portfolio.total_book_value,
    Portfolio.total_unrealized_pnl, Portfolio.add_position.
  cbn [Portfolio.positions Portfolio.name Portfolio.currency].
  rewrite !map_app. cbn [map]. rewrite !pysum_snoc.
  repeat split.
Qed.

(** The decomposition of one position, for the priced-or-missing case. *)
Lemma position_value_parts (pos : BondPosition.t) :
  match BondPosition.current_price pos with
  | None =>
      BondPosition.market_value pos == BondPosition.book_value pos /\
      BondPosition.unrealized_pnl pos == 0
  | Some p =>
      ~ p == 0 ->
      BondPosition.market_value pos
      == BondPosition.book_value pos + BondPosition.unrealized_pnl pos
  end.
Proof.
  unfold BondPosition.market_value, BondPosition.book_value,
    BondPosition.unrealized_pnl.
  destruct (BondPosition.current_price pos) as [p|].
  - intro Hp.
    destruct (Qeq_bool p 0) eqn:E; [apply Qeq_bool_iff in E; contradiction|].
    ring.
  - split; reflexivity.
Qed.

(** X15.  The total market value is the total book value plus the total
    unrealized P&L, provided no position carries a current price of
    exactly zero. *)
Theorem portfolio_value_decomposition (pf : Portfolio.t) :
  Forall (fun pos =>
            match BondPosition.current_price pos with
            | Some p => ~ p == 0
            | None => True
            end) (Portfolio.positions pf) ->
  Portfolio.total_market_value pf
  == Portfolio.total_book_value pf + Portfolio.total_unrealized_pnl pf.
Proof.
  unfold Portfolio.total_market_value, Portfolio.total_book_value,
    Portfolio.total_unrealized_pnl.
  induction 1 as [|pos l Hpos _ IH]; [reflexivity|].
  cbn [map]. rewrite !pysum_cons, IH.
  pose proof (position_value_parts pos) as Hd.
  destruct (BondPosition.current_price pos) as [p|].
  - rewrite (Hd Hpos). ring.
  - destruct Hd as (Hm & Hu). rewrite Hm, Hu. ring.
Qed.

Lemma portfolio_value_decomposition_witness :
  let bond :=
    Bond.mk String.EmptyString String.EmptyString 1000 (1 # 20)
      (mk_datetime 738000 0) (mk_datetime 739826 0) 2 CORPORATE (Some AA)
      String.EmptyString String.EmptyString in
  let pf :=
    Portfolio.mk String.EmptyString
      [BondPosition.mk bond 10 980 (mk_datetime 738100 0) (Some 1010);
       BondPosition.mk bond 5 1000 (mk_datetime 738200 0) None]
      String.EmptyString in
  Portfolio.total_market_value pf
  == Portfolio.total_book_value pf + Portfolio.total_unrealized_pnl pf.
Proof.
  intros bond pf. apply (portfolio_value_decomposition pf).
  repeat constructor. discriminate.
Defined.

(** X16.  The portfolio's P&L percentage never raises: on a zero total
    book value it is 0, otherwise the total P&L per hundred of total book
    value. *)
Theorem portfolio_pnl_percent_total (pf : Portfolio.t) :
  exists r,
    Portfolio.total_unrealized_pnl_percent pf = Ok r /\
    (Portfolio.total_book_value pf == 0 -> r == 0) /\
    (~ Portfolio.total_book_value pf == 0 ->
     r * Portfolio.total_book_value pf
     == 100 * Portfolio.total_unrealized_pnl pf).
Proof.
  unfold Portfolio.total_unrealized_pnl_percent.
  destruct (Qeq_bool (Portfolio.total_book_value pf) 0) eqn:E.
  - apply Qeq_bool_iff in E.
    exists 0. split; [reflexivity | split; [reflexivity | contradiction]].
  - assert (Hb : ~ Portfolio.total_book_value pf == 0)
      by (intro H; apply Qeq_bool_iff in H; congruence).
    rewrite pydiv_ok by exact Hb. cbn [bind].
    eexists; split; [reflexivity | split; [contradiction|]].
    intros _. field. exact Hb.
Qed.

Lemma find_after_filter {A : Type} (keep test : A -> bool) (l : list A) :
  (forall a, test a = true -> keep a = true) ->
  find test (filter keep l) = find test l.
Proof.
  intro H. induction l as [|a l IH]; [reflexivity|].
  cbn [filter find]. destruct (keep a) eqn:Ek.
  - cbn [find]. now rewrite IH.
  - destruct (test a) eqn:Et; [|exact IH].
    rewrite (H a Et) in Ek. discriminate.
Qed.

Lemma find_none_after_filter {A : Type} (test : A -> bool) (l : list A) :
  find test (filter (fun a => negb (test a)) l) = None.
Proof.
  induction l as [|a l IH]; [reflexivity|].
  cbn [filter]. destruct (test a) eqn:Et; cbn [negb]; [exact IH|].
  cbn [find]. now rewrite Et.
Qed.

Lemma filter_twice {A : Type} (keep : A -> bool) (l : list A) :
  filter keep (filter keep l) = filter keep l.
Proof.
  induction l as [|a l IH]; [reflexivity|].
  cbn [filter]. destruct (keep a) eqn:E; [|exact IH].
  cbn [filter]. now rewrite E, IH.
Qed.

(** X17.  Removing an ISIN removes every position that carries it: the
    ISIN is no longer found, every other ISIN is found as before, the
    remaining positions keep their order, and a second removal changes
    nothing. *)
Theorem remove_position_lookup (pf : Portfolio.t) (isin : String.string) :
  let pf' := Portfolio.remove_position pf isin in
  Portfolio.get_position_by_isin pf' isin = None /\
  (forall other, other <> isin ->
     Portfolio.get_position_by_isin pf' other
     = Portfolio.get_position_by_isin pf other) /\
  (forall pos, In pos (Portfolio.positions pf') <->
     In pos (Portfolio.positions pf) /\
     Bond.isin (BondPosition.bond pos) <> isin) /\
  Portfolio.remove_position pf' isin = pf'.
Proof.
  unfold Portfolio.get_position_by_isin, Portfolio.remove_position.
  cbn [Portfolio.positions Portfolio.name Portfolio.currency].
  split; [|split; [|split]].
  - apply (find_none_after_filter
             (fun p => String.eqb (Bond.isin (BondPosition.bond p)) isin)).
  - intros other Hne. apply find_after_filter.
    intros a Ha. apply String.eqb_eq in Ha.
    apply negb_true_iff, String.eqb_neq. congruence.
  - intro pos. rewrite filter_In, negb_true_iff, String.eqb_neq. tauto.
  - f_equal. apply filter_twice.
Qed.

Lemma find_app_one {A : Type} (test : A -> bool) (l : list A) (a : A) :
  find test (l ++ [a]) =
  match find test l with
  | Some b => Some b
  | None => if test a then Some a else None
  end.
Proof.
  induction l as [|b l IH]; [reflexivity|].
  cbn [app find]. destruct (test b); [reflexivity | exact IH].
Qed.

(** X18.  After adding a position, looking up an ISIN returns the first
    position that already carried it, if any: the new position is found
    under its own ISIN only when no earlier position has it. *)
Theorem add_position_lookup (pf : Portfolio.t) (pos : BondPosition.t)
    (isin : String.string) :
  Portfolio.get_position_by_isin (Portfolio.add_position pf pos) isin =
  match Portfolio.get_position_by_isin pf isin with
  | Some earlier => Some earlier
  | None =>
      if String.eqb (Bond.isin (BondPosition.bond pos)) isin
      then Some pos else None
  end /\
  (forall found,
     Portfolio.get_position_by_isin (Portfolio.add_position pf pos) isin
     = Some found ->
     Bond.isin (BondPosition.bond found) = isin /\
     (found = pos \/ In found (Portfolio.positions pf))).
Proof.
  unfold Portfolio.get_position_by_isin, Portfolio.add_position.
  cbn [Portfolio.positions]. split.
  { exact (find_app_one
             (fun p => String.eqb (Bond.isin (BondPosition.bond p)) isin)
             (Portfolio.positions pf) pos). }
  intros found Hfound. apply find_some in Hfound.
  destruct Hfound as (Hin & Heq). apply String.eqb_eq in Heq.
  split; [exact Heq|]. apply in_app_or in Hin.
  destruct Hin as [Hin|[<-|[]]]; [now right | now left].
Qed.

(** X19.  The selections by bond type split the portfolio: a position is
    selected under a type exactly when it is in the portfolio with that
    type, and over the five types the selections hold every position
    once.  A position without a credit rating is selected under no
    rating. *)
Theorem positions_by_type_partition (pf : Portfolio.t) :
  (forall bond_type pos,
     In pos (Portfolio.get_positions_by_type pf bond_type) <->
     In pos (Portfolio.positions pf) /\
     Bond.bond_type (BondPosition.bond pos) = bond_type) /\
  (length (Portfolio.get_positions_by_type pf GOVERNMENT)
   + length (Portfolio.get_positions_by_type pf CORPORATE)
   + length (Portfolio.get_positions_by_type pf MUNICIPAL)
   + length (Portfolio.get_positions_by_type pf CONVERTIBLE)
   + length (Portfolio.get_positions_by_type pf ZERO_COUPON)
   = length (Portfolio.positions pf))%nat /\
  (forall rating pos,
     In pos (Portfolio.get_positions_by_rating pf rating) <->
     In pos (Portfolio.positions pf) /\
     Bond.credit_rating (BondPosition.bond pos) = Some rating).
Proof.
  unfold Portfolio.get_positions_by_type, Portfolio.get_positions_by_rating.
  split; [|split].
  - intros bond_type pos. rewrite filter_In.
    destruct (Bond.bond_type (BondPosition.bond pos)), bond_type;
      cbn [BondType_eqb]; intuition congruence.
  - induction (Portfolio.positions pf) as [|pos l IH]; [reflexivity|].
    cbn [filter].
    destruct (Bond.bond_type (BondPosition.bond pos));
      cbn [BondType_eqb length]; lia.
  - intros rating pos. rewrite filter_In.
    destruct (Bond.credit_rating (BondPosition.bond pos)) as [r|];
      [|intuition congruence].
    destruct r, rating; cbn [CreditRating_eqb]; intuition congruence.
Qed.

(** ** Bonds *)

Lemma days_between_sign (a b : datetime) :
  (0 <= day_micros a < micros_per_day)%Z ->
  (0 <= day_micros b < micros_per_day)%Z ->
  (datetime_ltb b a = true -> (0 <= days_between a b)%Z) /\
  (datetime_ltb b a = false -> (days_between a b <= 0)%Z).
Proof.
  unfold datetime_ltb, days_between, micros_per_day. intros Ha Hb. split.
  - intro H. apply Z.div_pos; [|lia].
    apply orb_true_iff in H. destruct H as [H|H].
    + apply Z.ltb_lt in H. lia.
    + apply andb_true_iff in H. destruct H as (H1 & H2).
      apply Z.eqb_eq in H1. apply Z.ltb_lt in H2. lia.
  - intro H. apply orb_false_iff in H. destruct H as (H1 & H2).
    apply Z.ltb_ge in H1. apply andb_false_iff in H2.
    assert (Hle : ((toordinal a - toordinal b) * 86400000000
                   + (day_micros a - day_micros b) <= 0)%Z).
    { destruct H2 as [H2|H2];
        [apply Z.eqb_neq in H2 | apply Z.ltb_ge in H2]; lia. }
    apply Z.div_le_upper_bound; lia.
Qed.

(** X20.  For a bond whose maturity and the clock are well-formed
    datetimes: while the bond is active its years to maturity (from now)
    are non-negative, and once it is no longer active they are
    non-positive; in both cases they are the whole days to maturity over
    365.25. *)
Theorem years_to_maturity_sign (now : datetime) (b : Bond.t) :
  (0 <= day_micros now < micros_per_day)%Z ->
  (0 <= day_micros (Bond.maturity_date b) < micros_per_day)%Z ->
  Bond.years_to_maturity now b None * (1461 # 4)
  == inject_Z (days_between (Bond.maturity_date b) now) /\
  (Bond.is_active now b = true -> 0 <= Bond.years_to_maturity now b None) /\
  (Bond.is_active now b = false -> Bond.years_to_maturity now b None <= 0).
Proof.
  intros Hn Hm. unfold Bond.years_to_maturity, Bond.is_active.
  destruct (days_between_sign (Bond.maturity_date b) now Hm Hn) as (Hpos & Hneg).
  set (d := days_between (Bond.maturity_date b) now) in *.
  split; [field|split]; intro H.
  - apply Qle_shift_div_l; [reflexivity|].
    specialize (Hpos H). rewrite Zle_Qle in Hpos.
    change (inject_Z 0) with 0 in Hpos. lra.
  - apply Qle_shift_div_r; [reflexivity|].
    specialize (Hneg H). rewrite Zle_Qle in Hneg.
    change (inject_Z 0) with 0 in Hneg. lra.
Qed.

Lemma years_to_maturity_sign_witness :
  let b :=
    Bond.mk String.EmptyString String.EmptyString 1000 (1 # 20)
      (mk_datetime 738000 0) (mk_datetime 739826 0) 2 CORPORATE None
      String.EmptyString String.EmptyString in
  0 <= Bond.years_to_maturity (mk_datetime 738500 3600000000) b None.
Proof.
  intro b.
  destruct (years_to_maturity_sign (mk_datetime 738500 3600000000) b)
    as (_ & H & _); [split; [discriminate | reflexivity] ..|].
  apply H. reflexivity.
Defined.

(** ** Scaling *)

(** X21.  The price is proportional to the face value: multiplying the
    face value by [k] multiplies the price by [k], at the same coupon
    rate, maturity, yield and frequency. *)
Theorem price_scales_with_face_value (k F c Y y : Q) (f : Z) :
  (0 < f)%Z ->
  ~ 1 + y / inject_Z f == 0 \/ py_int (Y * inject_Z f) = 0%Z ->
  exists p pk,
    calculate_bond_price F c Y y f = Ok p /\
    calculate_bond_price (k * F) c Y y f = Ok pk /\
    pk == k * p.
Proof.
  intros Hf Hx.
  assert (Hf0 : ~ inject_Z f == 0) by (apply inject_Z_nonzero; lia).
  destruct (Qeq_dec y 0) as [Hy|Hy].
  - rewrite !(price_zero_yield _ c Y y f Hf Hy).
    do 2 eexists; split; [reflexivity | split; [reflexivity|]].
    field. exact Hf0.
  - rewrite !(price_general _ c Y y f Hf Hy Hx).
    do 2 eexists; split; [reflexivity | split; [reflexivity|]].
    assert (Hp : ~ (1 + y / inject_Z f) ^ py_int (Y * inject_Z f) == 0).
    { destruct Hx as [Hx|Hx]; [now apply Qpower_not_0|].
      rewrite Hx. simpl. discriminate. }
    field. repeat split; assumption.
Qed.

Lemma price_scales_with_face_value_witness :
  exists p pk,
    calculate_bond_price 100 (1 # 20) 5 (3 # 50) 2 = Ok p /\
    calculate_bond_price (10 * 100) (1 # 20) 5 (3 # 50) 2 = Ok pk /\
    pk == 10 * p.
Proof.
  apply (price_scales_with_face_value 10 100 (1 # 20) 5 (3 # 50) 2);
    [reflexivity | left; discriminate].
Defined.
